(** * KoClipMaskApplicator: the luminance clip-mask kernel

    A shallow embedding of [libs/flake/KoClipMaskApplicator.h]:
    the xsimd specialisation of [applyLuminanceMask], the generic
    (no-SIMD) primary template, and the scalar
    [fallbackLuminanceMask] that handles the left-over pixels.

    - [quint8 *] buffers live in one byte-addressed memory, pointers
      are addresses ([Z]); the two cursors of the kernel may therefore
      alias, exactly as in the C++ signature.
    - [quint32] lanes are [Z] with the 32-bit wrap-around written out.
    - [float] is IEEE-754 binary32, modelled with the Standard Library's
      [SpecFloat] at precision 24 and exponent bound 128.
    - an xsimd batch is the list of its lanes; the batch width
      [float_v::size] is a parameter [W : positive].
    - every [float] operation of the source is one correctly rounded
      binary32 operation, in the order the source writes them. *)

From Stdlib Require Import ZArith Bool List Lia Floats.SpecFloat.
From coqutil Require Import Byte Word.LittleEndianList Z.bitblast.
Import ListNotations.
Local Open Scope Z_scope.

(* ================================================================= *)
(** ** IEEE-754 binary32 *)

Module Binary32.

Definition prec : Z := 24.
Definition emax : Z := 128.

Definition float : Type := spec_float.

Definition fmul : float -> float -> float := SFmul prec emax.
Definition fadd : float -> float -> float := SFadd prec emax.
Definition fdiv : float -> float -> float := SFdiv prec emax.

(** [int] to [float] conversion (cvtdq2ps and friends): the nearest
    binary32, ties to even; exact below 2^24. *)
Definition of_int (i : Z) : float := binary_normalize prec emax i 0 false.

(** The integer nearest to [m * 2^e], ties to even. *)
Definition round_half_even (m : positive) (e : Z) : Z :=
  match e with
  | Z0 => Zpos m
  | Zpos _ => Zpos m * 2 ^ e
  | Zneg k =>
      let d := 2 ^ Zpos k in
      let q := Zpos m / d in
      let r := Zpos m mod d in
      match 2 * r ?= d with
      | Lt => q
      | Gt => q + 1
      | Eq => if Z.even q then q else q + 1
      end
  end.

(** Round-to-nearest integer value of a float that is zero or finite. *)
Definition rint (x : float) : Z :=
  match x with
  | S754_finite s m e => cond_Zopp s (round_half_even m e)
  | _ => 0
  end.

Definition INT_MIN : Z := - 2 ^ 31.

(** [float] to [int] in the current (default) rounding mode.  What
    does not fit a 32-bit [int] (and NaN) gives the "integer
    indefinite" value of the SSE conversion. *)
Definition to_int (x : float) : Z :=
  match x with
  | S754_zero _ => 0
  | S754_finite _ _ _ =>
      let v := rint x in
      if (INT_MIN <=? v) && (v <? 2 ^ 31) then v else INT_MIN
  | _ => INT_MIN
  end.

(** The value of a finite float as a quotient [num / den]. *)
Definition num_den (x : float) : Z * Z :=
  match x with
  | S754_finite s m (Zneg k) => (cond_Zopp s (Zpos m), 2 ^ Zpos k)
  | S754_finite s m e => (cond_Zopp s (Zpos m) * 2 ^ e, 1)
  | _ => (0, 1)
  end.

(** [x] is [+0] or a positive finite number below [2^K]. *)
Definition below (K : Z) (x : float) : Prop :=
  match x with
  | S754_zero s => s = false
  | S754_finite s m e => s = false /\ Zpos (digits2_pos m) + e <= K
  | _ => False
  end.

(** The same, as a test. *)
Definition below_b (K : Z) (x : float) : bool :=
  match x with
  | S754_zero s => negb s
  | S754_finite s m e => negb s && (Zpos (digits2_pos m) + e <=? K)
  | _ => false
  end.

(** [f] holds of every 8-bit value. *)
Definition all_bytes (f : Z -> bool) : bool :=
  forallb f (map Z.of_nat (seq 0 256)).

End Binary32.

(* ================================================================= *)
(** ** Bytes, memory and the store log *)

Module Mem.

(** Byte-addressed memory; every address holds a [quint8]. *)
Definition memory : Type := Z -> byte.

(** The machine state the kernel threads through: the memory, and
    (as ghost state) the addresses of the 32-bit pixels stored so
    far, oldest first. *)
Record state : Type := mkState { mem : memory; stores : list Z }.

(** Read of a [quint32] through a [reinterpret_cast<const quint32 *>]
    (little-endian host). *)
Definition load_u32 (m : memory) (a : Z) : Z :=
  le_combine [m a; m (a + 1); m (a + 2); m (a + 3)].

Definition write_bytes (m : memory) (a : Z) (bs : list byte) : memory :=
  fun x =>
    if 0 <=? x - a
    then match nth_error bs (Z.to_nat (x - a)) with
         | Some b => b
         | None => m x
         end
    else m x.

(** Write of a [quint32]. *)
Definition store_u32 (st : state) (a : Z) (w : Z) : state :=
  {| mem := write_bytes (mem st) a (le_split 4 w);
     stores := stores st ++ [a] |}.

(** The addresses of [n] consecutive 32-bit pixels from [p] on. *)
Definition pixel_addrs (p : Z) (n : Z) : list Z :=
  map (fun i => p + 4 * Z.of_nat i) (seq 0 (Z.to_nat n)).

(** The byte ranges [p, p + 4n) and [m, m + 4n) do not overlap. *)
Definition separate (p m n : Z) : Prop :=
  p + 4 * n <= m \/ m + 4 * n <= p.

End Mem.

(* ================================================================= *)
(** ** xsimd batches *)

Module xsimd.
Import Binary32.

Definition batch (A : Type) : Type := list A.

Fixpoint zip_with {A B C} (f : A -> B -> C) (u : list A) (v : list B) : list C :=
  match u, v with
  | x :: u', y :: v' => f x y :: zip_with f u' v'
  | _, _ => []
  end.

Section Lanes.
Variable size : nat.   (* the number of lanes of the batch type *)

Definition broadcast {A} (x : A) : batch A := repeat x size.

Fixpoint load_lanes (k : nat) (m : Mem.memory) (a : Z) : batch Z :=
  match k with
  | O => []
  | S k' => Mem.load_u32 m a :: load_lanes k' m (a + 4)
  end.

(** [uint_v::load_unaligned] *)
Definition load_unaligned (m : Mem.memory) (a : Z) : batch Z :=
  load_lanes size m a.
End Lanes.

(** [batch::store_unaligned] *)
Fixpoint store_unaligned (v : batch Z) (st : Mem.state) (a : Z) : Mem.state :=
  match v with
  | [] => st
  | w :: v' => store_unaligned v' (Mem.store_u32 st a w) (a + 4)
  end.

(** 32-bit unsigned lane operations. *)
Definition shr (v : batch Z) (n : Z) : batch Z := map (fun x => Z.shiftr x n) v.
Definition shl (v : batch Z) (n : Z) : batch Z :=
  map (fun x => Z.shiftl x n mod 2 ^ 32) v.
Definition band (u v : batch Z) : batch Z := zip_with Z.land u v.
Definition bor (u v : batch Z) : batch Z := zip_with Z.lor u v.

(** [bitwise_cast_compat<int>]: the same 32 bits read as signed. *)
Definition as_int (x : Z) : Z := if x <? 2 ^ 31 then x else x - 2 ^ 32.
(** [bitwise_cast_compat<unsigned int>]: the same bits read as unsigned. *)
Definition as_uint (x : Z) : Z := x mod 2 ^ 32.

Definition bitwise_cast_compat_int (v : batch Z) : batch Z := map as_int v.
Definition bitwise_cast_compat_uint (v : batch Z) : batch Z := map as_uint v.

Definition to_float (v : batch Z) : batch float := map of_int v.
Definition nearbyint_as_int (v : batch float) : batch Z := map to_int v.

Definition mul (u v : batch float) : batch float := zip_with fmul u v.
Definition add (u v : batch float) : batch float := zip_with fadd u v.

End xsimd.

(* ================================================================= *)
(** ** The kernel *)

Module KoClipMaskApplicator.
Import Binary32 Mem xsimd.

(** The rec709 weights, as the [float] literals of the header:
    [0.2125f] (0x3E59999A), [0.7154f] (0x3F372474) and [0.0721f]
    (0x3D93A92A). *)
Definition redLum : float := S754_finite false 14260634 (-26).
Definition greenLum : float := S754_finite false 12002420 (-24).
Definition blueLum : float := S754_finite false 9677098 (-27).

Definition colorChannelsMask : Z := 0x00FFFFFF.

(** Modelled from the spec: the channels of a pixel as the fallback
    reads them.  Spec 3: a pixel is a 32-bit ARGB value, from high
    byte to low byte alpha, red, green, blue. *)
Definition alphaOf (px : Z) : Z := (px / 2 ^ 24) mod 2 ^ 8.
Definition redOf (px : Z) : Z := (px / 2 ^ 16) mod 2 ^ 8.
Definition greenOf (px : Z) : Z := (px / 2 ^ 8) mod 2 ^ 8.
Definition blueOf (px : Z) : Z := px mod 2 ^ 8.

(** [maskAlpha * ((redLum * maskRed) + (greenLum * maskGreen) +
    (blueLum * maskBlue))] on raw channel values, in [float]
    arithmetic: the [maskValue] of the header and of the spec. *)
Definition maskValueOf (a r g b : Z) : float :=
  fmul (of_int a)
       (fadd (fadd (fmul redLum (of_int r)) (fmul greenLum (of_int g)))
             (fmul blueLum (of_int b))).

(** Modelled from the spec: the body of
    [KoClipMaskApplicatorBase::fallbackLuminanceMask] is not part of
    the header (only its declaration is).  Spec 4.1: one pixel at a
    time, [maskValue] from the four raw mask channels, the new alpha
    is the rounded [imageAlpha * maskValue] truncated to its low 8
    bits, and the pixel is rebuilt from the low 24 bits of the
    original image pixel and the new alpha on top. *)
Definition fallback_pixel (shape maskPx : Z) : Z :=
  let maskValue :=
    maskValueOf (alphaOf maskPx) (redOf maskPx) (greenOf maskPx) (blueOf maskPx) in
  let newAlpha := to_int (fmul (of_int (alphaOf shape)) maskValue) in
  shape mod 2 ^ 24 + 2 ^ 24 * (newAlpha mod 2 ^ 8).

(** Modelled from the spec: the loop of [fallbackLuminanceMask],
    [iters] pixels from the two cursors on. *)
Fixpoint fallback_loop (iters : nat) (st : state) (pixels maskPixels : Z) : state :=
  match iters with
  | O => st
  | S k =>
      let shape := load_u32 (mem st) pixels in
      let maskPx := load_u32 (mem st) maskPixels in
      fallback_loop k (store_u32 st pixels (fallback_pixel shape maskPx))
                    (pixels + 4) (maskPixels + 4)
  end.

(** Modelled from the spec: [fallbackLuminanceMask(pixels, maskPixels,
    nPixels)], the scalar reference path; a count that is not
    positive runs no iteration. *)
Definition fallbackLuminanceMask (st : state) (pixels maskPixels nPixels : Z) : state :=
  fallback_loop (Z.to_nat nPixels) st pixels maskPixels.

(** The primary template (no SIMD): everything goes to the fallback. *)
Definition applyLuminanceMask_generic (st : state) (pixels maskPixels nPixels : Z) : state :=
  fallbackLuminanceMask st pixels maskPixels nPixels.

Section Vectorised.
(** [float_v::size] of the selected architecture. *)
Variable W : positive.
Definition size : nat := Pos.to_nat W.

(** [const uint_v mask = 0xFF] *)
Definition mask : batch Z := broadcast size 0xFF.

Definition vectorPixelStride : Z := 4 * Zpos W.

(** The batch arithmetic of one iteration, from the two loaded
    batches to the batch that is stored. *)
Definition vector_batch (shapeData maskData : batch Z) : batch Z :=
  let maskAlpha := to_float (bitwise_cast_compat_int (band (shr maskData 24) mask)) in
  let maskRed := to_float (bitwise_cast_compat_int (band (shr maskData 16) mask)) in
  let maskGreen := to_float (bitwise_cast_compat_int (band (shr maskData 8) mask)) in
  let maskBlue := to_float (bitwise_cast_compat_int (band maskData mask)) in
  let maskValue :=
    mul maskAlpha
        (add (add (mul (broadcast size redLum) maskRed)
                  (mul (broadcast size greenLum) maskGreen))
             (mul (broadcast size blueLum) maskBlue)) in
  let pixelAlpha :=
    mul (to_float (bitwise_cast_compat_int (shr shapeData 24))) maskValue in
  let pixelAlpha_i := bitwise_cast_compat_uint (nearbyint_as_int pixelAlpha) in
  bor (band shapeData (broadcast size colorChannelsMask)) (shl pixelAlpha_i 24).

(** The body of the [for] loop: two loads, the batch arithmetic, one
    store. *)
Definition vector_body (st : state) (pixels maskPixels : Z) : state :=
  let shapeData := load_unaligned size (mem st) pixels in
  let maskData := load_unaligned size (mem st) maskPixels in
  store_unaligned (vector_batch shapeData maskData) st pixels.

(** [for (int i = 0; i < block; i++) { ...; pixels += vectorPixelStride;
    maskPixels += vectorPixelStride; }]: the state and the two
    cursors after [iters] iterations. *)
Fixpoint vector_loop (iters : nat) (st : state) (pixels maskPixels : Z)
  : state * Z * Z :=
  match iters with
  | O => (st, pixels, maskPixels)
  | S k =>
      vector_loop k (vector_body st pixels maskPixels)
                  (pixels + vectorPixelStride) (maskPixels + vectorPixelStride)
  end.

(** The xsimd specialisation of [applyLuminanceMask]; [/] and [%]
    on [int] truncate towards zero. *)
Definition applyLuminanceMask (st : state) (pixels maskPixels nPixels : Z) : state :=
  let block := Z.quot nPixels (Zpos W) in
  let block2 := Z.rem nPixels (Zpos W) in
  let '(st', pixels', maskPixels') :=
    vector_loop (Z.to_nat block) st pixels maskPixels in
  fallbackLuminanceMask st' pixels' maskPixels' block2.
End Vectorised.

End KoClipMaskApplicator.

(* ================================================================= *)
(** ** What a run over [n] pixels does, pixel by pixel *)

Module Pixelwise.
Import Binary32 Mem xsimd KoClipMaskApplicator.

(** The value of the byte at address [a]. *)
Definition u8 (mu : memory) (a : Z) : Z := byte.unsigned (mu a).

(** The computed alpha before the store truncates it: the [int] that
    [nearbyint_as_int] returns for [imageAlpha * maskValue]. *)
Definition pixel_alpha (imageAlpha a r g b : Z) : Z :=
  to_int (fmul (of_int imageAlpha) (maskValueOf a r g b)).

(** The alpha byte the kernel computes, in memory [mu], for the image
    pixel at address [pa] and the mask pixel at address [ma]. *)
Definition new_alpha (mu : memory) (pa ma : Z) : byte :=
  byte.of_Z (pixel_alpha (u8 mu (pa + 3))
                         (u8 mu (ma + 3)) (u8 mu (ma + 2)) (u8 mu (ma + 1)) (u8 mu ma)).

(** One lane of [vector_batch]. *)
Definition vector_lane (shape maskPx : Z) : Z :=
  let ch (k : Z) := as_int (Z.land (Z.shiftr maskPx k) 0xFF) in
  let maskAlpha := of_int (ch 24) in
  let maskRed := of_int (ch 16) in
  let maskGreen := of_int (ch 8) in
  let maskBlue := of_int (as_int (Z.land maskPx 0xFF)) in
  let maskValue :=
    fmul maskAlpha
         (fadd (fadd (fmul redLum maskRed) (fmul greenLum maskGreen))
               (fmul blueLum maskBlue)) in
  let pixelAlpha := fmul (of_int (as_int (Z.shiftr shape 24))) maskValue in
  let pixelAlpha_i := as_uint (to_int pixelAlpha) in
  Z.lor (Z.land shape colorChannelsMask) (Z.shiftl pixelAlpha_i 24 mod 2 ^ 32).

(** The alpha bytes of the [n] pixels at [p], as numbers. *)
Definition alpha_bytes (st : state) (p : Z) (n : nat) : list Z :=
  map (fun i => u8 (mem st) (p + 4 * Z.of_nat i + 3)) (seq 0 n).

(** [x] is the address of the alpha byte of one of the [n] pixels at [p]. *)
Definition touched (p n x : Z) : Prop :=
  exists i, 0 <= i < n /\ x = p + 4 * i + 3.

(** Nothing but alpha bytes of the [n] pixels changed. *)
Definition frame (st st' : state) (p n : Z) : Prop :=
  forall x, ~ touched p n x -> mem st' x = mem st x.

(** The stores of the run are one store per pixel, in order. *)
Definition logged (st st' : state) (p n : Z) : Prop :=
  stores st' = stores st ++ pixel_addrs p n.

(** Every alpha byte holds the value computed from memory [mu0]. *)
Definition alphas (mu0 : memory) (st' : state) (p m n : Z) : Prop :=
  forall i, 0 <= i < n ->
    mem st' (p + 4 * i + 3) = new_alpha mu0 (p + 4 * i) (m + 4 * i).

(** A run whose inputs were all read from [mu0]. *)
Definition run (mu0 : memory) (st st' : state) (p m n : Z) : Prop :=
  frame st st' p n /\ logged st st' p n /\ alphas mu0 st' p m n.

(** A run that reads as it goes: it computes from the initial memory
    when the mask range and the image range are separate. *)
Definition sep_run (st st' : state) (p m n : Z) : Prop :=
  frame st st' p n /\ logged st st' p n /\
  (separate p m n -> alphas (mem st) st' p m n).

End Pixelwise.

(* ================================================================= *)
(** ** Concrete buffers *)

Module Demo.
Import Mem.

(** Six image pixels at address 0 (alpha bytes 2, 42, 82, 122, 162,
    202) and six mask pixels at address 100 whose bytes are given by
    [maskByte]; zero elsewhere. *)
Definition buffers (maskByte : Z -> Z) : memory :=
  fun a =>
    if (0 <=? a) && (a <? 24) then
      if a mod 4 =? 3 then byte.of_Z (40 * (a / 4) + 2) else byte.of_Z (7 * a + 1)
    else if (100 <=? a) && (a <? 124) then byte.of_Z (maskByte (a - 100))
    else Byte.x00.

(** An opaque white mask. *)
Definition white : state := mkState (buffers (fun _ => 255)) [].

(** A coloured mask that is fully transparent. *)
Definition clear : state :=
  mkState (buffers (fun o => if o mod 4 =? 3 then 0 else 37 * o + 11)) [].

(** A mask with all sorts of values. *)
Definition mixed : state := mkState (buffers (fun o => 37 * o + 11)) [].

(** As [mixed], except for the first five mask pixels. *)
Definition mixed' : state :=
  mkState (buffers (fun o => if o <? 20 then 5 else 37 * o + 11)) [].

End Demo.

(* ================================================================= *)
(** ** More concrete buffers *)

Module Demo2.
Import Mem.

(** Six mask pixels of all sorts at address 100 and six image pixels
    at address 0 whose alpha bytes are all 0. *)
Definition transparent : state :=
  mkState (fun a =>
             if (0 <=? a) && (a <? 24) then
               if a mod 4 =? 3 then Byte.x00 else byte.of_Z (9 * a + 4)
             else if (100 <=? a) && (a <? 124) then byte.of_Z (37 * (a - 100) + 11)
             else Byte.x00) [].

(** A black mask of varying opacity over the image of [Demo]. *)
Definition black : state :=
  mkState (Demo.buffers (fun o => if o mod 4 =? 3 then 31 * o + 7 else 0)) [].

(** A white mask of varying opacity over the image of [Demo]. *)
Definition veiled : state :=
  mkState (Demo.buffers (fun o => if o mod 4 =? 3 then 31 * o + 7 else 255)) [].

(** The buffers of [Demo.mixed] in a memory that differs elsewhere. *)
Definition elsewhere : state :=
  mkState (fun a => if a =? 50 then Byte.xff else mem Demo.mixed a) [].

End Demo2.

(* ================================================================= *)
(** ** Facts about binary32 rounding *)

Module Binary32Facts.
Import Binary32.

Lemma digits2_pos_bounds p :
  2 ^ (Zpos (digits2_pos p) - 1) <= Zpos p < 2 ^ Zpos (digits2_pos p).
Proof.
  induction p as [p IH | p IH |]; cbn [digits2_pos].
  - rewrite Pos2Z.inj_succ.
    replace (Z.succ (Zpos (digits2_pos p)) - 1) with (Z.succ (Zpos (digits2_pos p) - 1)) by lia.
    rewrite !Z.pow_succ_r by lia. lia.
  - rewrite Pos2Z.inj_succ.
    replace (Z.succ (Zpos (digits2_pos p)) - 1) with (Z.succ (Zpos (digits2_pos p) - 1)) by lia.
    rewrite !Z.pow_succ_r by lia. lia.
  - cbn. lia.
Qed.

Lemma Zdigits2_le m k : 0 <= m < 2 ^ k -> 0 <= k -> Zdigits2 m <= k.
Proof.
  intros [Hm Hlt] Hk. destruct m as [| p | p]; cbn [Zdigits2]; try lia.
  pose proof (digits2_pos_bounds p) as [Hlo _].
  destruct (Z_lt_le_dec k (Zpos (digits2_pos p))) as [Hc | Hc]; [| lia].
  assert (2 ^ k <= 2 ^ (Zpos (digits2_pos p) - 1)) by (apply Z.pow_le_mono_r; lia).
  lia.
Qed.

Lemma Zdigits2_nonneg m : 0 <= m -> 0 <= Zdigits2 m.
Proof. destruct m; cbn; lia. Qed.

Lemma shr_1_m mrs : 0 <= shr_m mrs -> shr_m (shr_1 mrs) = shr_m mrs / 2.
Proof.
  destruct mrs as [m r s]; cbn [shr_m]. intros Hm.
  destruct m as [| [p | p |] | p]; cbn [shr_1 shr_m].
  - reflexivity.
  - apply Z.div_unique with 1; lia.
  - apply Z.div_unique with 0; lia.
  - reflexivity.
  - lia.
Qed.

Lemma pow2_xO n : 2 ^ Zpos n~0 = 2 ^ Zpos n * 2 ^ Zpos n.
Proof. replace (Zpos n~0) with (Zpos n + Zpos n) by lia. apply Z.pow_add_r; lia. Qed.

Lemma pow2_xI n : 2 ^ Zpos n~1 = 2 * (2 ^ Zpos n * 2 ^ Zpos n).
Proof.
  replace (Zpos n~1) with (1 + (Zpos n + Zpos n)) by lia.
  rewrite Z.pow_add_r, Z.pow_add_r by lia. reflexivity.
Qed.

Lemma iter_shr_1_m n : forall mrs, 0 <= shr_m mrs ->
  shr_m (iter_pos shr_1 n mrs) = shr_m mrs / 2 ^ Zpos n.
Proof.
  assert (Hstep : forall mrs, 0 <= shr_m mrs -> 0 <= shr_m (shr_1 mrs)).
  { intros mrs H. rewrite shr_1_m by assumption. apply Z.div_pos; lia. }
  assert (Hpow : forall k, 0 < 2 ^ Zpos k) by (intros; apply Z.pow_pos_nonneg; lia).
  induction n as [n IH | n IH |]; intros mrs Hm; cbn [iter_pos].
  - pose proof (Hpow n). rewrite IH, IH, shr_1_m; auto.
    + rewrite !Z.div_div by lia. rewrite pow2_xI. reflexivity.
    + rewrite IH by auto. apply Z.div_pos; [auto | lia].
  - pose proof (Hpow n). rewrite IH, IH; auto.
    + rewrite !Z.div_div by lia. rewrite pow2_xO. reflexivity.
    + rewrite IH by auto. apply Z.div_pos; [auto | lia].
  - rewrite shr_1_m by auto. reflexivity.
Qed.

(** the two components of [shr_fexp] on a non-negative mantissa *)
Lemma shr_fexp_spec m e l :
  0 <= m ->
  let e' := Z.max e (fexp prec emax (Zdigits2 m + e)) in
  snd (shr_fexp prec emax m e l) = e' /\
  shr_m (fst (shr_fexp prec emax m e l)) = m / 2 ^ (e' - e).
Proof.
  intros Hm e'. unfold shr_fexp, shr.
  assert (Hrec : shr_m (shr_record_of_loc m l) = m) by (destruct l as [| []]; reflexivity).
  destruct (fexp prec emax (Zdigits2 m + e) - e) as [| d | d] eqn:Hd; cbn [fst snd].
  - subst e'. rewrite Z.max_l by lia. rewrite Z.sub_diag, Hrec. cbn. rewrite Z.div_1_r. auto.
  - subst e'. rewrite Z.max_r by lia. split; [lia |].
    rewrite iter_shr_1_m by lia. rewrite Hrec. f_equal. f_equal. lia.
  - subst e'. rewrite Z.max_l by lia. rewrite Z.sub_diag, Hrec. cbn. rewrite Z.div_1_r. auto.
Qed.

Lemma round_nearest_even_bounds m l : m <= round_nearest_even m l <= m + 1.
Proof. destruct l as [| []]; cbn; try lia. destruct (Z.even m); lia. Qed.

Lemma div_pow2_lt m j s : 0 <= m -> 0 <= s -> 0 <= j -> m < 2 ^ (j + s) -> m / 2 ^ s < 2 ^ j.
Proof.
  intros Hm Hs Hj Hlt. apply Z.div_lt_upper_bound; [lia |].
  rewrite <- Z.pow_add_r by lia. rewrite Z.add_comm. exact Hlt.
Qed.

(** Rounding a non-negative number below [2^K] stays finite and at
    most reaches [2^K]. *)
Lemma binary_round_aux_below s m e l K :
  0 <= m < 2 ^ (K - e) -> e <= K -> -149 <= K <= 127 -> e <= 104 ->
  match binary_round_aux prec emax s m e l with
  | S754_zero s' => s' = s
  | S754_finite s' m' e' => s' = s /\ Zpos (digits2_pos m') + e' <= K + 1
  | _ => False
  end.
Proof.
  intros [Hm Hlt] HeK HK He. unfold binary_round_aux.
  pose proof (shr_fexp_spec m e l Hm) as H1. cbv zeta in H1.
  destruct (shr_fexp prec emax m e l) as [mrs1 e1]. cbn [fst snd] in H1.
  destruct H1 as [He1 Hm1]. rewrite <- He1 in Hm1.
  set (mr := round_nearest_even (shr_m mrs1) (loc_of_shr_record mrs1)).
  assert (Hd : Zdigits2 m <= K - e) by (apply Zdigits2_le; lia).
  pose proof (Zdigits2_nonneg m Hm) as Hd0.
  assert (He1K : e <= e1 <= K /\ e1 <= 104).
  { subst e1. unfold fexp, emin, prec, emax. lia. }
  assert (Hm1b : 0 <= shr_m mrs1 < 2 ^ (K - e1)).
  { rewrite Hm1. split; [apply Z.div_pos; lia |].
    apply div_pow2_lt; try lia. replace (K - e1 + (e1 - e)) with (K - e) by lia. exact Hlt. }
  assert (Hmr : 0 <= mr < 2 ^ (K + 1 - e1)).
  { pose proof (round_nearest_even_bounds (shr_m mrs1) (loc_of_shr_record mrs1)).
    fold mr in H. replace (K + 1 - e1) with (Z.succ (K - e1)) by lia.
    rewrite Z.pow_succ_r by lia. lia. }
  pose proof (shr_fexp_spec mr e1 loc_Exact (proj1 Hmr)) as H2. cbv zeta in H2.
  destruct (shr_fexp prec emax mr e1 loc_Exact) as [mrs2 e2]. cbn [fst snd] in H2.
  destruct H2 as [He2 Hm2]. rewrite <- He2 in Hm2.
  assert (Hd2 : Zdigits2 mr <= K + 1 - e1) by (apply Zdigits2_le; lia).
  pose proof (Zdigits2_nonneg mr (proj1 Hmr)) as Hd20.
  assert (He2K : e1 <= e2 <= K + 1 /\ e2 <= 104).
  { subst e2. unfold fexp, emin, prec, emax. lia. }
  assert (Hm2b : 0 <= shr_m mrs2 < 2 ^ (K + 1 - e2)).
  { rewrite Hm2. split; [apply Z.div_pos; lia |].
    apply div_pow2_lt; try lia. replace (K + 1 - e2 + (e2 - e1)) with (K + 1 - e1) by lia. lia. }
  destruct (shr_m mrs2) as [| m2 | m2] eqn:Hsm; [reflexivity | | lia].
  replace (e2 <=? emax - prec) with true by (symmetry; apply Z.leb_le; unfold emax, prec; lia).
  split; [reflexivity |].
  assert (Zdigits2 (Zpos m2) <= K + 1 - e2) by (apply Zdigits2_le; lia).
  cbn [Zdigits2] in H. lia.
Qed.

Lemma below_mantissa K m e :
  Zpos (digits2_pos m) + e <= K -> Zpos m < 2 ^ (K - e) /\ e < K.
Proof.
  intros H. pose proof (digits2_pos_bounds m) as [_ Hhi]. split; [| lia].
  apply Z.lt_le_trans with (1 := Hhi). apply Z.pow_le_mono_r; lia.
Qed.

Tactic Notation "below_cases" constr(x) hyp(Hx) "as" ident(m) ident(e) :=
  destruct x as [? | ? | | ? m e]; cbn [below] in Hx;
  [ subst | contradiction | contradiction | destruct Hx as [? Hx]; subst ].

Lemma below_weaken K K' x : below K x -> K <= K' -> below K' x.
Proof. destruct x; cbn; intuition lia. Qed.

Lemma pow2_scale_lt a u v : 0 <= a < 2 ^ u -> 0 <= u -> 0 <= v -> a * 2 ^ v < 2 ^ (u + v).
Proof.
  intros [Ha Hlt] Hu Hv. rewrite Z.pow_add_r by lia.
  apply Z.mul_lt_mono_pos_r; [apply Z.pow_pos_nonneg; lia | exact Hlt].
Qed.

Lemma iter_xO_pow m d : Zpos (Pos.iter xO m d) = Zpos m * 2 ^ Zpos d.
Proof.
  induction d as [| d IH] using Pos.peano_ind.
  - cbn. lia.
  - rewrite Pos.iter_succ, Pos2Z.inj_xO, IH, Pos2Z.inj_succ, Z.pow_succ_r by lia. lia.
Qed.

Lemma shl_align_spec mx ex ex' :
  snd (shl_align mx ex ex') = Z.min ex ex' /\
  Zpos (fst (shl_align mx ex ex')) = Zpos mx * 2 ^ (ex - Z.min ex ex').
Proof.
  unfold shl_align. destruct (ex' - ex) as [| d | d] eqn:Hd; cbn [fst snd].
  - rewrite Z.min_l by lia. rewrite Z.sub_diag. cbn. lia.
  - rewrite Z.min_l by lia. rewrite Z.sub_diag. cbn. lia.
  - rewrite Z.min_r by lia. split; [reflexivity |].
    rewrite iter_xO_pow. f_equal. f_equal. lia.
Qed.

Lemma binary_round_below m e K :
  Zpos m < 2 ^ (K - e) -> e <= K -> -149 <= K <= 127 -> e <= 104 ->
  below (K + 1) (binary_round prec emax false m e).
Proof.
  intros Hlt HeK HK He. unfold binary_round.
  pose proof (shl_align_spec m e (fexp prec emax (Zpos (digits2_pos m) + e))) as [He' Hm'].
  destruct (shl_align m e (fexp prec emax (Zpos (digits2_pos m) + e))) as [mz ez].
  cbn [fst snd] in He', Hm'. rewrite <- He' in Hm'.
  assert (Hez : ez <= e) by lia.
  pose proof (binary_round_aux_below false (Zpos mz) ez loc_Exact K) as H.
  unfold below.
  destruct (binary_round_aux prec emax false (Zpos mz) ez loc_Exact); apply H; try lia.
  all: split; [lia |]; rewrite Hm';
    replace (K - ez) with (K - e + (e - ez)) by lia; apply pow2_scale_lt; lia.
Qed.

Lemma of_int_below i K :
  0 <= i < 2 ^ K -> 0 <= K <= 104 -> below (K + 1) (of_int i).
Proof.
  intros [Hi Hlt] HK. unfold of_int, binary_normalize.
  destruct i as [| m | m]; [reflexivity | | lia].
  apply binary_round_below; try lia. rewrite Z.sub_0_r. exact Hlt.
Qed.

Lemma fmul_below Kx Ky x y :
  below Kx x -> below Ky y -> -149 <= Kx + Ky <= 106 ->
  below (Kx + Ky + 1) (fmul x y).
Proof.
  intros Hx Hy HK.
  below_cases x Hx as mx ex; below_cases y Hy as my ey; try reflexivity.
  apply below_mantissa in Hx, Hy. destruct Hx as [Hx Hex], Hy as [Hy Hey].
  unfold fmul, SFmul. cbn [xorb].
  pose proof (binary_round_aux_below false (Zpos (mx * my)) (ex + ey) loc_Exact (Kx + Ky)) as H.
  unfold below.
  destruct (binary_round_aux prec emax false (Zpos (mx * my)) (ex + ey) loc_Exact);
    apply H; try lia.
  all: split; [lia |]; rewrite Pos2Z.inj_mul;
    replace (Kx + Ky - (ex + ey)) with ((Kx - ex) + (Ky - ey)) by lia;
    rewrite Z.pow_add_r by lia; apply Z.mul_lt_mono_nonneg; lia.
Qed.

Lemma fadd_below Kx Ky x y :
  below Kx x -> below Ky y -> -150 <= Z.max Kx Ky <= 104 ->
  below (Z.max Kx Ky + 2) (fadd x y).
Proof.
  intros Hx Hy HK.
  below_cases x Hx as mx ex; below_cases y Hy as my ey; try reflexivity.
  - unfold fadd, SFadd, below. split; [reflexivity | lia].
  - unfold fadd, SFadd, below. split; [reflexivity | lia].
  - apply below_mantissa in Hx, Hy. destruct Hx as [Hx Hex], Hy as [Hy Hey].
    unfold fadd, SFadd. cbn [cond_Zopp].
    set (ez := Z.min ex ey).
    pose proof (shl_align_spec mx ex ez) as [_ Hmx].
    pose proof (shl_align_spec my ey ez) as [_ Hmy].
    rewrite Z.min_r in Hmx by (unfold ez; lia). rewrite Z.min_r in Hmy by (unfold ez; lia).
    destruct (shl_align mx ex ez) as [mx' ?], (shl_align my ey ez) as [my' ?].
    cbn [fst] in *. cbn [Z.add binary_normalize].
    set (M := Z.max Kx Ky) in *.
    replace (M + 2) with (M + 1 + 1) by lia.
    assert (Hpow : 2 ^ (M + 1 - ez) = 2 * 2 ^ (M - ez)).
    { replace (M + 1 - ez) with (Z.succ (M - ez)) by lia.
      apply Z.pow_succ_r. unfold ez, M. lia. }
    assert (Hbx : Zpos mx' < 2 ^ (M - ez)).
    { rewrite Hmx. apply Z.lt_le_trans with (2 ^ (Kx - ex + (ex - ez))).
      - apply pow2_scale_lt; unfold ez; lia.
      - apply Z.pow_le_mono_r; unfold M; lia. }
    assert (Hby : Zpos my' < 2 ^ (M - ez)).
    { rewrite Hmy. apply Z.lt_le_trans with (2 ^ (Ky - ey + (ey - ez))).
      - apply pow2_scale_lt; unfold ez; lia.
      - apply Z.pow_le_mono_r; unfold M; lia. }
    apply binary_round_below; unfold ez, M in *; lia.
Qed.

Lemma round_half_even_bounds m e K :
  Zpos m < 2 ^ (K - e) -> e <= K -> 0 <= K -> 0 <= round_half_even m e <= 2 ^ K.
Proof.
  intros Hlt HeK HK. unfold round_half_even.
  destruct e as [| e | k].
  - rewrite Z.sub_0_r in Hlt. lia.
  - assert (Zpos m * 2 ^ Zpos e < 2 ^ (K - Zpos e + Zpos e)) by (apply pow2_scale_lt; lia).
    replace (K - Zpos e + Zpos e) with K in H by lia.
    assert (0 < 2 ^ Zpos e) by (apply Z.pow_pos_nonneg; lia). nia.
  - cbv zeta. set (d := 2 ^ Zpos k).
    assert (Hd : 0 < d) by (apply Z.pow_pos_nonneg; lia).
    assert (Hq : 0 <= Zpos m / d < 2 ^ K).
    { split; [apply Z.div_pos; lia |]. apply div_pow2_lt; try lia.
      replace (K + Zpos k) with (K - Zneg k) by lia. exact Hlt. }
    destruct (2 * (Zpos m mod d) ?= d); [destruct (Z.even (Zpos m / d)) | |]; lia.
Qed.

Lemma rint_below K x : below K x -> 0 <= K -> 0 <= rint x <= 2 ^ K.
Proof.
  intros Hx HK. assert (0 < 2 ^ K) by (apply Z.pow_pos_nonneg; lia).
  below_cases x Hx as m e; cbn [rint cond_Zopp]; try lia.
  apply below_mantissa in Hx. apply round_half_even_bounds; lia.
Qed.

Lemma to_int_below K x : below K x -> 0 <= K <= 30 -> to_int x = rint x.
Proof.
  intros Hx HK. pose proof (rint_below K x Hx (proj1 HK)) as Hr.
  assert (2 ^ K <= 2 ^ 30) by (apply Z.pow_le_mono_r; lia).
  destruct x as [s | s | | s m e]; cbn in Hx; try contradiction; [reflexivity |].
  unfold to_int.
  replace ((INT_MIN <=? rint (S754_finite s m e)) && (rint (S754_finite s m e) <? 2 ^ 31))
    with true; [reflexivity |].
  symmetry. apply andb_true_intro. unfold INT_MIN. split; [apply Z.leb_le | apply Z.ltb_lt]; lia.
Qed.

(** [rint] is a nearest integer: it is within one half of the value. *)
Lemma rint_nearest x :
  2 * Z.abs (rint x * snd (num_den x) - fst (num_den x)) <= snd (num_den x).
Proof.
  destruct x as [s | s | | s m e]; cbn [rint num_den fst snd]; try lia.
  destruct e as [| e | k]; cbn [fst snd round_half_even].
  - destruct s; cbn [cond_Zopp]; lia.
  - destruct s; cbn [cond_Zopp]; lia.
  - set (d := 2 ^ Zpos k).
    assert (Hd : 0 < d) by (apply Z.pow_pos_nonneg; lia).
    pose proof (Z.div_mod (Zpos m) d ltac:(lia)) as Hdm.
    pose proof (Z.mod_pos_bound (Zpos m) d Hd) as Hr.
    destruct (Z.compare_spec (2 * (Zpos m mod d)) d) as [Hc | Hc | Hc];
      [destruct (Z.even (Zpos m / d)) | |]; destruct s; cbn [cond_Zopp]; nia.
Qed.

End Binary32Facts.

(* ================================================================= *)
(** ** Bytes and 32-bit words *)

Module WordFacts.
Import Mem.

Lemma testbit_small lo k i : 0 <= lo < 2 ^ k -> k <= i -> Z.testbit lo i = false.
Proof.
  intros Hlo Hi. destruct (Z.eq_dec lo 0) as [-> | Hne]; [apply Z.testbit_0_l |].
  apply Z.bits_above_log2; [lia |].
  apply Z.lt_le_trans with k; [| exact Hi].
  apply Z.log2_lt_pow2; lia.
Qed.

Lemma lor_low_high k lo hi :
  0 <= k -> 0 <= lo < 2 ^ k -> Z.lor lo (Z.shiftl hi k) = lo + 2 ^ k * hi.
Proof.
  intros Hk Hlo. rewrite Z.or_to_plus.
  - rewrite Z.shiftl_mul_pow2 by lia. lia.
  - apply Z.bits_inj'. intros i Hi. rewrite Z.land_spec, Z.bits_0.
    destruct (Z.ltb_spec i k) as [Hlt | Hge].
    + rewrite Z.shiftl_spec_low by lia. apply andb_false_r.
    + rewrite (testbit_small lo k i) by lia. reflexivity.
Qed.

Lemma le_combine4 b0 b1 b2 b3 :
  le_combine [b0; b1; b2; b3] =
  byte.unsigned b0 + 2 ^ 8 * (byte.unsigned b1 + 2 ^ 8 * (byte.unsigned b2
  + 2 ^ 8 * byte.unsigned b3)).
Proof.
  pose proof (byte.unsigned_range b0). pose proof (byte.unsigned_range b1).
  pose proof (byte.unsigned_range b2). pose proof (byte.unsigned_range b3).
  cbv [le_combine]. change (Z.shiftl 0 8) with 0. rewrite Z.lor_0_r.
  rewrite !lor_low_high by lia. lia.
Qed.

Lemma le_split4 w :
  le_split 4 w = [byte.of_Z w; byte.of_Z (w / 2 ^ 8); byte.of_Z (w / 2 ^ 16); byte.of_Z (w / 2 ^ 24)].
Proof.
  cbv [le_split]. rewrite !Z.shiftr_shiftr by lia. rewrite !Z.shiftr_div_pow2 by lia.
  reflexivity.
Qed.

Lemma of_Z_mod z : byte.of_Z (z mod 2 ^ 8) = byte.of_Z z.
Proof.
  apply byte.unsigned_inj. rewrite !byte.unsigned_of_Z. unfold byte.wrap.
  apply Z.mod_mod. lia.
Qed.

Lemma of_Z_eq z b : z mod 2 ^ 8 = byte.unsigned b -> byte.of_Z z = b.
Proof. intros H. rewrite <- of_Z_mod, H. apply byte.of_Z_unsigned. Qed.

End WordFacts.

(* ================================================================= *)
(** ** One pixel *)

Module PixelFacts.
Import Binary32 Mem xsimd KoClipMaskApplicator Pixelwise WordFacts.

Lemma load_u32_eq mu a :
  load_u32 mu a =
  u8 mu a + 2 ^ 8 * (u8 mu (a + 1) + 2 ^ 8 * (u8 mu (a + 2) + 2 ^ 8 * u8 mu (a + 3))).
Proof. apply le_combine4. Qed.

Lemma u8_range mu a : 0 <= u8 mu a < 2 ^ 8.
Proof. apply byte.unsigned_range. Qed.

Lemma load_u32_range mu a : 0 <= load_u32 mu a < 2 ^ 32.
Proof.
  rewrite load_u32_eq.
  pose proof (u8_range mu a). pose proof (u8_range mu (a + 1)).
  pose proof (u8_range mu (a + 2)). pose proof (u8_range mu (a + 3)).
  change (2 ^ 8) with 256 in *. change (2 ^ 32) with 4294967296. lia.
Qed.

(** The four channels of a loaded pixel are its four bytes. *)
Lemma load_u32_channels mu a :
  blueOf (load_u32 mu a) = u8 mu a /\
  greenOf (load_u32 mu a) = u8 mu (a + 1) /\
  redOf (load_u32 mu a) = u8 mu (a + 2) /\
  alphaOf (load_u32 mu a) = u8 mu (a + 3) /\
  load_u32 mu a mod 2 ^ 24 =
    u8 mu a + 2 ^ 8 * (u8 mu (a + 1) + 2 ^ 8 * u8 mu (a + 2)).
Proof.
  rewrite load_u32_eq. unfold blueOf, greenOf, redOf, alphaOf.
  pose proof (u8_range mu a). pose proof (u8_range mu (a + 1)).
  pose proof (u8_range mu (a + 2)). pose proof (u8_range mu (a + 3)).
  change (2 ^ 8) with 256 in *. change (2 ^ 16) with 65536.
  change (2 ^ 24) with 16777216.
  repeat split; Z.div_mod_to_equations; lia.
Qed.

Lemma write_bytes4 mu a b0 b1 b2 b3 x :
  write_bytes mu a [b0; b1; b2; b3] x =
  if x =? a then b0
  else if x =? a + 1 then b1
  else if x =? a + 2 then b2
  else if x =? a + 3 then b3
  else mu x.
Proof.
  unfold write_bytes.
  destruct (Z.eqb_spec x a) as [-> | H0].
  { rewrite Z.sub_diag. reflexivity. }
  destruct (Z.eqb_spec x (a + 1)) as [-> | H1].
  { replace (a + 1 - a) with 1 by lia. reflexivity. }
  destruct (Z.eqb_spec x (a + 2)) as [-> | H2].
  { replace (a + 2 - a) with 2 by lia. reflexivity. }
  destruct (Z.eqb_spec x (a + 3)) as [-> | H3].
  { replace (a + 3 - a) with 3 by lia. reflexivity. }
  destruct (Z.leb_spec 0 (x - a)) as [Hle | Hlt]; [| reflexivity].
  replace (nth_error [b0; b1; b2; b3] (Z.to_nat (x - a))) with (@None byte); [reflexivity |].
  symmetry. apply nth_error_None. cbn [length]. lia.
Qed.

(** The pixel the fallback writes back: the three colour bytes as they
    were, and the new alpha byte. *)
Lemma fallback_pixel_bytes mu pa ma :
  le_split 4 (fallback_pixel (load_u32 mu pa) (load_u32 mu ma)) =
  [mu pa; mu (pa + 1); mu (pa + 2); new_alpha mu pa ma].
Proof.
  rewrite le_split4. unfold fallback_pixel, new_alpha, pixel_alpha.
  destruct (load_u32_channels mu pa) as (_ & _ & _ & -> & ->).
  destruct (load_u32_channels mu ma) as (-> & -> & -> & -> & _).
  set (v := to_int _).
  pose proof (u8_range mu pa). pose proof (u8_range mu (pa + 1)).
  pose proof (u8_range mu (pa + 2)).
  pose proof (Z.mod_pos_bound v (2 ^ 8) ltac:(lia)) as Hv.
  set (w := _ + 2 ^ 24 * (v mod 2 ^ 8)).
  assert (E0 : w mod 2 ^ 8 = u8 mu pa /\ (w / 2 ^ 8) mod 2 ^ 8 = u8 mu (pa + 1) /\
               (w / 2 ^ 16) mod 2 ^ 8 = u8 mu (pa + 2) /\
               (w / 2 ^ 24) mod 2 ^ 8 = v mod 2 ^ 8).
  { subst w. change (2 ^ 8) with 256 in *. change (2 ^ 16) with 65536.
    change (2 ^ 24) with 16777216. repeat split; Z.div_mod_to_equations; lia. }
  destruct E0 as (E0 & E1 & E2 & E3).
  rewrite (of_Z_eq w (mu pa) E0), (of_Z_eq _ (mu (pa + 1)) E1), (of_Z_eq _ (mu (pa + 2)) E2).
  rewrite <- (of_Z_mod (w / 2 ^ 24)), E3, of_Z_mod. reflexivity.
Qed.

Lemma as_int_small x : 0 <= x < 2 ^ 8 -> as_int x = x.
Proof.
  intros H. unfold as_int. destruct (Z.ltb_spec x (2 ^ 31)) as [_ | Hge]; [reflexivity |].
  change (2 ^ 8) with 256 in H. change (2 ^ 31) with 2147483648 in Hge. lia.
Qed.

Lemma shl24_wrap v : Z.shiftl (as_uint v) 24 mod 2 ^ 32 = Z.shiftl (v mod 2 ^ 8) 24.
Proof.
  unfold as_uint. rewrite !Z.shiftl_mul_pow2 by lia.
  change (2 ^ 32) with (2 ^ 8 * 2 ^ 24).
  rewrite Z.mul_mod_distr_r by lia. f_equal.
  change (2 ^ 8 * 2 ^ 24) with (2 ^ 8 * 16777216).
  rewrite Z.rem_mul_r by lia.
  rewrite Z.mul_comm, Z.mod_add by lia. apply Z.mod_mod. lia.
Qed.

(** On 32-bit words, a lane of the vector code computes what the
    fallback computes for one pixel. *)
Lemma vector_lane_fallback s mk :
  0 <= s < 2 ^ 32 -> vector_lane s mk = fallback_pixel s mk.
Proof.
  intros Hs. unfold vector_lane, fallback_pixel, maskValueOf.
  unfold alphaOf, redOf, greenOf, blueOf.
  change 0xFF with (Z.ones 8). change colorChannelsMask with (Z.ones 24).
  rewrite !Z.land_ones, !Z.shiftr_div_pow2 by lia.
  assert (Ha : 0 <= s / 2 ^ 24 < 2 ^ 8).
  { change (2 ^ 24) with 16777216. change (2 ^ 8) with 256.
    change (2 ^ 32) with 4294967296 in Hs. Z.div_mod_to_equations; lia. }
  rewrite (as_int_small (s / 2 ^ 24)) by exact Ha.
  rewrite (Z.mod_small (s / 2 ^ 24)) by exact Ha.
  rewrite !as_int_small by (apply Z.mod_pos_bound; lia).
  rewrite shl24_wrap. apply lor_low_high; [lia |]. apply Z.mod_pos_bound. lia.
Qed.

End PixelFacts.

(* ================================================================= *)
(** ** Runs compose *)

Module RunFacts.
Import Binary32 Mem xsimd KoClipMaskApplicator Pixelwise WordFacts PixelFacts.

Lemma touched_dec p n x : touched p n x \/ ~ touched p n x.
Proof.
  destruct (Z.eq_dec ((x - p - 3) mod 4) 0) as [Hm | Hm].
  - destruct (Z_le_dec 0 ((x - p - 3) / 4)) as [Hlo | Hlo].
    + destruct (Z_lt_dec ((x - p - 3) / 4) n) as [Hhi | Hhi].
      * left. exists ((x - p - 3) / 4). split; [lia |].
        pose proof (Z.div_mod (x - p - 3) 4 ltac:(lia)). lia.
      * right. intros (i & Hi & ->). apply Hhi.
        replace (p + 4 * i + 3 - p - 3) with (i * 4) by lia.
        rewrite Z.div_mul by lia. lia.
    + right. intros (i & Hi & ->). apply Hlo.
      replace (p + 4 * i + 3 - p - 3) with (i * 4) by lia.
      rewrite Z.div_mul by lia. lia.
  - right. intros (i & Hi & ->). apply Hm.
    replace (p + 4 * i + 3 - p - 3) with (i * 4) by lia. apply Z.mod_mul. lia.
Qed.

Lemma touched_split p n1 n2 x :
  0 <= n1 -> 0 <= n2 ->
  touched p (n1 + n2) x <-> touched p n1 x \/ touched (p + 4 * n1) n2 x.
Proof.
  intros H1 H2. split.
  - intros (i & Hi & ->). destruct (Z_lt_dec i n1) as [Hlt | Hge].
    + left. exists i. split; [lia | reflexivity].
    + right. exists (i - n1). split; lia.
  - intros [(i & Hi & ->) | (i & Hi & ->)].
    + exists i. split; lia.
    + exists (n1 + i). split; lia.
Qed.

Lemma map_seq_from {A} len : forall (f : nat -> A) s,
  map f (seq s len) = map (fun i => f (s + i)%nat) (seq 0 len).
Proof.
  induction len as [| len IH]; intros f s; [reflexivity |].
  cbn [seq map]. rewrite Nat.add_0_r. f_equal.
  rewrite (IH f (S s)), (IH (fun i => f (s + i)%nat) 1%nat).
  apply map_ext. intros i. f_equal. lia.
Qed.

Lemma pixel_addrs_app p n1 n2 :
  0 <= n1 -> 0 <= n2 ->
  pixel_addrs p (n1 + n2) = pixel_addrs p n1 ++ pixel_addrs (p + 4 * n1) n2.
Proof.
  intros H1 H2. unfold pixel_addrs.
  rewrite Z2Nat.inj_add, seq_app, map_app by lia. f_equal.
  rewrite map_seq_from. apply map_ext. intros i. lia.
Qed.

Lemma pixel_addrs_nonpos p n : n <= 0 -> pixel_addrs p n = [].
Proof.
  intros H. unfold pixel_addrs. replace (Z.to_nat n) with 0%nat by lia. reflexivity.
Qed.

Lemma in_pixel_addrs p n a :
  In a (pixel_addrs p n) <-> exists i, 0 <= i < n /\ a = p + 4 * i.
Proof.
  unfold pixel_addrs. rewrite in_map_iff. split.
  - intros (k & <- & Hk). apply in_seq in Hk. exists (Z.of_nat k). split; lia.
  - intros (i & Hi & ->). exists (Z.to_nat i). split; [lia |]. apply in_seq. lia.
Qed.

Lemma NoDup_pixel_addrs p n : NoDup (pixel_addrs p n).
Proof.
  unfold pixel_addrs. apply Finite.Injective_map_NoDup; [| apply seq_NoDup].
  intros i j H. lia.
Qed.

(** *** Runs from a fixed input memory *)

Lemma frame_nil st p n : n <= 0 -> frame st st p n.
Proof. intros _ x _. reflexivity. Qed.

Lemma logged_nil st p n : n <= 0 -> logged st st p n.
Proof. intros H. unfold logged. rewrite pixel_addrs_nonpos, app_nil_r by exact H. reflexivity. Qed.

Lemma frame_seq st st1 st2 p n1 n2 :
  0 <= n1 -> 0 <= n2 ->
  frame st st1 p n1 -> frame st1 st2 (p + 4 * n1) n2 -> frame st st2 p (n1 + n2).
Proof.
  intros H1 H2 F1 F2 x Hx.
  rewrite F2, F1; [reflexivity | |]; intros Ht; apply Hx; apply touched_split; auto.
Qed.

Lemma logged_seq st st1 st2 p n1 n2 :
  0 <= n1 -> 0 <= n2 ->
  logged st st1 p n1 -> logged st1 st2 (p + 4 * n1) n2 -> logged st st2 p (n1 + n2).
Proof.
  unfold logged. intros H1 H2 L1 L2.
  rewrite L2, L1, pixel_addrs_app, app_assoc by assumption. reflexivity.
Qed.

Lemma run_nil mu0 st p m : run mu0 st st p m 0.
Proof.
  split; [apply frame_nil; lia | split; [apply logged_nil; lia |]].
  intros i Hi. lia.
Qed.

Lemma run_seq mu0 st st1 st2 p m n1 n2 :
  0 <= n1 -> 0 <= n2 ->
  run mu0 st st1 p m n1 -> run mu0 st1 st2 (p + 4 * n1) (m + 4 * n1) n2 ->
  run mu0 st st2 p m (n1 + n2).
Proof.
  intros H1 H2 (F1 & L1 & A1) (F2 & L2 & A2).
  split; [eapply frame_seq; eauto | split; [eapply logged_seq; eauto |]].
  intros i Hi. destruct (Z_lt_dec i n1) as [Hlt | Hge].
  - rewrite F2; [apply A1; lia |].
    intros (j & Hj & E). lia.
  - specialize (A2 (i - n1) ltac:(lia)).
    replace (p + 4 * n1 + 4 * (i - n1)) with (p + 4 * i) in A2 by lia.
    replace (m + 4 * n1 + 4 * (i - n1)) with (m + 4 * i) in A2 by lia.
    exact A2.
Qed.

(** Storing the pixel computed from [mu0] where the state still
    agrees with [mu0] on that pixel. *)
Lemma store_pixel_run mu0 st p m :
  (forall x, p <= x < p + 3 -> mem st x = mu0 x) ->
  run mu0 st (store_u32 st p (fallback_pixel (load_u32 mu0 p) (load_u32 mu0 m))) p m 1.
Proof.
  intros Hag. unfold run, frame, logged, alphas, store_u32. cbn [mem stores].
  rewrite fallback_pixel_bytes.
  split; [| split].
  - intros x Hx. rewrite write_bytes4.
    destruct (Z.eqb_spec x p) as [-> | ?]; [symmetry; apply Hag; lia |].
    destruct (Z.eqb_spec x (p + 1)) as [-> | ?]; [symmetry; apply Hag; lia |].
    destruct (Z.eqb_spec x (p + 2)) as [-> | ?]; [symmetry; apply Hag; lia |].
    destruct (Z.eqb_spec x (p + 3)) as [-> | ?]; [| reflexivity].
    exfalso. apply Hx. exists 0. split; lia.
  - change (pixel_addrs p 1) with [p + 0]. rewrite Z.add_0_r. reflexivity.
  - intros i Hi. assert (i = 0) as -> by lia.
    rewrite write_bytes4. change (4 * 0) with 0. rewrite !Z.add_0_r.
    destruct (Z.eqb_spec (p + 3) p); [lia |].
    destruct (Z.eqb_spec (p + 3) (p + 1)); [lia |].
    destruct (Z.eqb_spec (p + 3) (p + 2)); [lia |].
    rewrite Z.eqb_refl. reflexivity.
Qed.

Lemma store_u32_above st a w x : a + 4 <= x -> mem (store_u32 st a w) x = mem st x.
Proof.
  intros H. unfold store_u32. cbn [mem]. rewrite le_split4, write_bytes4.
  destruct (Z.eqb_spec x a); [lia |]. destruct (Z.eqb_spec x (a + 1)); [lia |].
  destruct (Z.eqb_spec x (a + 2)); [lia |]. destruct (Z.eqb_spec x (a + 3)); [lia |].
  reflexivity.
Qed.

(** A whole batch: all lanes are computed from [mu0], then stored. *)
Lemma lanes_run mu0 k : forall st p m,
  (forall x, p <= x -> mem st x = mu0 x) ->
  run mu0 st
      (store_unaligned (zip_with fallback_pixel (load_lanes k mu0 p) (load_lanes k mu0 m)) st p)
      p m (Z.of_nat k).
Proof.
  induction k as [| k IH]; intros st p m Hag.
  - apply run_nil.
  - cbn [load_lanes zip_with store_unaligned].
    replace (Z.of_nat (S k)) with (1 + Z.of_nat k) by lia.
    eapply run_seq; [lia | lia | |].
    + apply store_pixel_run. intros x Hx. apply Hag. lia.
    + replace (p + 4 * 1) with (p + 4) by lia. replace (m + 4 * 1) with (m + 4) by lia.
      apply IH. intros x Hx. rewrite store_u32_above by lia. apply Hag. lia.
Qed.

End RunFacts.

(* ================================================================= *)
(** ** The two loops and the dispatch *)

Module LoopFacts.
Import Binary32 Mem xsimd KoClipMaskApplicator Pixelwise WordFacts PixelFacts RunFacts.

Lemma length_load_lanes k : forall mu a, length (load_lanes k mu a) = k.
Proof. induction k as [| k IH]; intros mu a; cbn [load_lanes length]; [| rewrite IH]; reflexivity. Qed.

(** The batch operations of one loop iteration act lane by lane. *)
Lemma vector_batch_lanes W shapeData maskData :
  length shapeData = size W -> length maskData = size W ->
  vector_batch W shapeData maskData = zip_with vector_lane shapeData maskData.
Proof.
  unfold vector_batch, mask, broadcast, mul, add, band, bor, shr, shl,
    to_float, nearbyint_as_int, bitwise_cast_compat_int, bitwise_cast_compat_uint.
  generalize (size W) as n. intros n. revert maskData n.
  induction shapeData as [| s S IH]; intros [| mk M] [| n] HS HM;
    cbn [length] in HS, HM; try discriminate; [reflexivity |].
  cbn [map zip_with repeat]. f_equal.
  apply IH; congruence.
Qed.

Lemma loaded_lanes_fallback k : forall mu p m,
  zip_with vector_lane (load_lanes k mu p) (load_lanes k mu m) =
  zip_with fallback_pixel (load_lanes k mu p) (load_lanes k mu m).
Proof.
  induction k as [| k IH]; intros mu p m; [reflexivity |].
  cbn [load_lanes zip_with]. rewrite IH, vector_lane_fallback by apply load_u32_range.
  reflexivity.
Qed.

(** One iteration of the vector loop, as a run of [W] pixels. *)
Lemma vector_body_run W st p m :
  run (mem st) st (vector_body W st p m) p m (Zpos W).
Proof.
  unfold vector_body, load_unaligned.
  rewrite vector_batch_lanes by apply length_load_lanes.
  rewrite loaded_lanes_fallback.
  replace (Zpos W) with (Z.of_nat (size W)) by apply positive_nat_Z.
  apply lanes_run. reflexivity.
Qed.

Lemma new_alpha_ext mu1 mu0 pa ma :
  mu1 (pa + 3) = mu0 (pa + 3) ->
  (forall t, 0 <= t < 4 -> mu1 (ma + t) = mu0 (ma + t)) ->
  new_alpha mu1 pa ma = new_alpha mu0 pa ma.
Proof.
  intros Hp Hm. unfold new_alpha, u8. rewrite Hp.
  rewrite (Hm 3), (Hm 2), (Hm 1) by lia.
  rewrite <- (Z.add_0_r ma), (Hm 0) by lia. reflexivity.
Qed.

Lemma sep_run_of_run st st' p m n : run (mem st) st st' p m n -> sep_run st st' p m n.
Proof. intros (F & L & A). repeat split; auto. Qed.

Lemma sep_run_nil st p m n : n <= 0 -> sep_run st st p m n.
Proof.
  intros H. split; [apply frame_nil; exact H | split; [apply logged_nil; exact H |]].
  intros _ i Hi. lia.
Qed.

Lemma sep_run_seq st st1 st2 p m n1 n2 :
  0 <= n1 -> 0 <= n2 ->
  sep_run st st1 p m n1 -> sep_run st1 st2 (p + 4 * n1) (m + 4 * n1) n2 ->
  sep_run st st2 p m (n1 + n2).
Proof.
  intros H1 H2 (F1 & L1 & A1) (F2 & L2 & A2).
  split; [eapply frame_seq; eauto | split; [eapply logged_seq; eauto |]].
  intros Hsep i Hi.
  assert (S1 : separate p m n1) by (unfold separate in *; lia).
  assert (S2 : separate (p + 4 * n1) (m + 4 * n1) n2) by (unfold separate in *; lia).
  destruct (Z_lt_dec i n1) as [Hlt | Hge].
  - rewrite F2; [apply A1; [exact S1 | lia] |].
    intros (j & Hj & E). lia.
  - specialize (A2 S2 (i - n1) ltac:(lia)).
    replace (p + 4 * n1 + 4 * (i - n1)) with (p + 4 * i) in A2 by lia.
    replace (m + 4 * n1 + 4 * (i - n1)) with (m + 4 * i) in A2 by lia.
    rewrite A2. apply new_alpha_ext.
    + apply F1. intros (j & Hj & E). lia.
    + intros t Ht. apply F1. intros (j & Hj & E). unfold separate in Hsep. lia.
Qed.

(** The scalar loop. *)
Lemma fallback_loop_run k : forall st p m,
  sep_run st (fallback_loop k st p m) p m (Z.of_nat k).
Proof.
  induction k as [| k IH]; intros st p m.
  - apply sep_run_nil. reflexivity.
  - cbn [fallback_loop]. replace (Z.of_nat (S k)) with (1 + Z.of_nat k) by lia.
    eapply sep_run_seq; [lia | lia | |].
    + apply sep_run_of_run, store_pixel_run. reflexivity.
    + replace (p + 4 * 1) with (p + 4) by lia. replace (m + 4 * 1) with (m + 4) by lia.
      apply IH.
Qed.

Lemma fallbackLuminanceMask_run st p m n :
  sep_run st (fallbackLuminanceMask st p m n) p m n.
Proof.
  unfold fallbackLuminanceMask. destruct (Z_le_dec 0 n) as [Hn | Hn].
  - rewrite <- (Z2Nat.id n Hn) at 2. apply fallback_loop_run.
  - replace (Z.to_nat n) with 0%nat by lia. apply sep_run_nil. lia.
Qed.

(** The vector loop: [k] iterations are a run of [W * k] pixels and
    leave both cursors [k] strides further. *)
Lemma vector_loop_run W k : forall st p m,
  exists st',
    vector_loop W k st p m =
      (st', p + vectorPixelStride W * Z.of_nat k, m + vectorPixelStride W * Z.of_nat k) /\
    sep_run st st' p m (Zpos W * Z.of_nat k).
Proof.
  unfold vectorPixelStride.
  induction k as [| k IH]; intros st p m.
  - exists st. cbn [vector_loop]. split.
    + change (Z.of_nat 0) with 0. rewrite !Z.mul_0_r, !Z.add_0_r. reflexivity.
    + apply sep_run_nil. lia.
  - cbn [vector_loop].
    destruct (IH (vector_body W st p m) (p + vectorPixelStride W) (m + vectorPixelStride W))
      as (st' & E & R).
    exists st'. unfold vectorPixelStride in E. split.
    + unfold vectorPixelStride. rewrite E. f_equal; [f_equal |]; lia.
    + replace (Zpos W * Z.of_nat (S k)) with (Zpos W + Zpos W * Z.of_nat k) by lia.
      eapply sep_run_seq; [lia | lia | |].
      * apply sep_run_of_run, vector_body_run.
      * unfold vectorPixelStride in R. exact R.
Qed.

(** [nPixels / W] and [nPixels % W] for a count that is not negative. *)
Lemma blocks W n :
  0 <= n ->
  0 <= Z.quot n (Zpos W) /\ 0 <= Z.rem n (Zpos W) < Zpos W /\
  n = Zpos W * Z.quot n (Zpos W) + Z.rem n (Zpos W).
Proof.
  intros Hn. split; [apply Z.quot_pos; lia |]. split.
  - apply Z.rem_bound_pos; lia.
  - apply Z.quot_rem'.
Qed.

Lemma blocks_neg W n :
  n < 0 -> Z.quot n (Zpos W) <= 0 /\ Z.rem n (Zpos W) <= 0.
Proof.
  intros Hn. split.
  - pose proof (Z.quot_opp_l n (Zpos W) ltac:(lia)) as E.
    pose proof (Z.quot_pos (- n) (Zpos W) ltac:(lia) ltac:(lia)). lia.
  - apply Z.rem_nonpos; lia.
Qed.

(** The xsimd specialisation as a run over all [nPixels] pixels. *)
Lemma applyLuminanceMask_run W st p m n :
  sep_run st (applyLuminanceMask W st p m n) p m n.
Proof.
  unfold applyLuminanceMask.
  destruct (vector_loop_run W (Z.to_nat (Z.quot n (Zpos W))) st p m) as (st' & E & R).
  rewrite E. destruct (Z_le_dec 0 n) as [Hn | Hn].
  - destruct (blocks W n Hn) as (Hq & Hr & En).
    rewrite Z2Nat.id in * by exact Hq.
    remember (Z.quot n (Zpos W)) as q eqn:Eq. remember (Z.rem n (Zpos W)) as r eqn:Er.
    rewrite En.
    eapply sep_run_seq; [lia | lia | exact R |].
    unfold vectorPixelStride.
    replace (p + 4 * Zpos W * q) with (p + 4 * (Zpos W * q)) by lia.
    replace (m + 4 * Zpos W * q) with (m + 4 * (Zpos W * q)) by lia.
    apply fallbackLuminanceMask_run.
  - destruct (blocks_neg W n ltac:(lia)) as (Hq & Hr).
    replace (Z.to_nat (Z.quot n (Zpos W))) with 0%nat in * by lia.
    cbn [vector_loop] in E. injection E as <- _ _.
    unfold fallbackLuminanceMask. replace (Z.to_nat (Z.rem n (Zpos W))) with 0%nat by lia.
    cbn [fallback_loop]. apply sep_run_nil. lia.
Qed.

End LoopFacts.

(* ================================================================= *)
(** ** The arithmetic of one alpha value *)

Module AlphaFacts.
Import Binary32 Binary32Facts Mem xsimd KoClipMaskApplicator Pixelwise.

Lemma below_b_sound K x : below_b K x = true -> below K x.
Proof.
  destruct x as [s | s | | s m e]; cbn [below_b below]; try discriminate.
  - destruct s; [discriminate | reflexivity].
  - intros H. apply andb_prop in H. destruct H as [Hs He].
    split; [destruct s; [discriminate | reflexivity] | apply Z.leb_le; exact He].
Qed.

Lemma all_bytes_spec f i : all_bytes f = true -> 0 <= i < 2 ^ 8 -> f i = true.
Proof.
  unfold all_bytes. intros H Hi. rewrite forallb_forall in H. apply H.
  apply in_map_iff. exists (Z.to_nat i). split; [lia |].
  apply in_seq. change (2 ^ 8) with 256 in Hi. lia.
Qed.

(** A channel value converts to a float below [2^8]. *)
Lemma of_int_byte i : 0 <= i < 2 ^ 8 -> below 8 (of_int i).
Proof.
  intros Hi. apply below_b_sound.
  apply (all_bytes_spec (fun i => below_b 8 (of_int i))); [vm_compute; reflexivity | exact Hi].
Qed.

(** The three weighted channels. *)
Lemma weighted_channels i :
  0 <= i < 2 ^ 8 ->
  below 6 (fmul redLum (of_int i)) /\
  below 8 (fmul greenLum (of_int i)) /\
  below 5 (fmul blueLum (of_int i)).
Proof.
  intros Hi. repeat split; apply below_b_sound.
  - apply (all_bytes_spec (fun i => below_b 6 (fmul redLum (of_int i))));
      [vm_compute; reflexivity | exact Hi].
  - apply (all_bytes_spec (fun i => below_b 8 (fmul greenLum (of_int i))));
      [vm_compute; reflexivity | exact Hi].
  - apply (all_bytes_spec (fun i => below_b 5 (fmul blueLum (of_int i))));
      [vm_compute; reflexivity | exact Hi].
Qed.

(** The luminance of a mask colour is a finite float below [2^12]. *)
Lemma luminance_below r g b :
  0 <= r < 2 ^ 8 -> 0 <= g < 2 ^ 8 -> 0 <= b < 2 ^ 8 ->
  below 12 (fadd (fadd (fmul redLum (of_int r)) (fmul greenLum (of_int g)))
                 (fmul blueLum (of_int b))).
Proof.
  intros Hr Hg Hb.
  destruct (weighted_channels r Hr) as (Br & _ & _).
  destruct (weighted_channels g Hg) as (_ & Bg & _).
  destruct (weighted_channels b Hb) as (_ & _ & Bb).
  apply (fadd_below 10 5); [| exact Bb | lia].
  apply (fadd_below 6 8); [exact Br | exact Bg | lia].
Qed.

Lemma maskValueOf_below a r g b :
  0 <= a < 2 ^ 8 -> 0 <= r < 2 ^ 8 -> 0 <= g < 2 ^ 8 -> 0 <= b < 2 ^ 8 ->
  below 21 (maskValueOf a r g b).
Proof.
  intros Ha Hr Hg Hb. unfold maskValueOf.
  apply (fmul_below 8 12); [apply of_int_byte; exact Ha | apply luminance_below; assumption | lia].
Qed.

(** The product that is rounded never leaves the range of [int]:
    the conversion is the plain round-to-nearest. *)
Lemma pixel_alpha_rint ia a r g b :
  0 <= ia < 2 ^ 8 ->
  0 <= a < 2 ^ 8 -> 0 <= r < 2 ^ 8 -> 0 <= g < 2 ^ 8 -> 0 <= b < 2 ^ 8 ->
  pixel_alpha ia a r g b = rint (fmul (of_int ia) (maskValueOf a r g b)) /\
  0 <= pixel_alpha ia a r g b <= 2 ^ 30.
Proof.
  intros Hia Ha Hr Hg Hb.
  assert (B : below 30 (fmul (of_int ia) (maskValueOf a r g b))).
  { apply (fmul_below 8 21); [apply of_int_byte; exact Hia | | lia].
    apply maskValueOf_below; assumption. }
  unfold pixel_alpha. rewrite (to_int_below 30) by (exact B || lia).
  split; [reflexivity | apply rint_below; [exact B | lia]].
Qed.

(** A mask pixel with alpha 0 gives the alpha 0. *)
Lemma pixel_alpha_mask_clear ia r g b :
  0 <= ia < 2 ^ 8 -> 0 <= r < 2 ^ 8 -> 0 <= g < 2 ^ 8 -> 0 <= b < 2 ^ 8 ->
  maskValueOf 0 r g b = S754_zero false /\ pixel_alpha ia 0 r g b = 0.
Proof.
  intros Hia Hr Hg Hb.
  assert (E : maskValueOf 0 r g b = S754_zero false).
  { unfold maskValueOf. pose proof (luminance_below r g b Hr Hg Hb) as B.
    destruct (fadd _ _) as [s | s | | s m e]; cbn [below] in B; try contradiction.
    - subst s. reflexivity.
    - destruct B as [-> _]. reflexivity. }
  split; [exact E |]. unfold pixel_alpha. rewrite E.
  pose proof (of_int_byte ia Hia) as B.
  destruct (of_int ia) as [s | s | | s m e]; cbn [below] in B; try contradiction; reflexivity.
Qed.

(** The opaque white mask pixel: [maskValue] is exactly 65025, and as
    65025 = 254 * 256 + 1 the low 8 bits of the product are the image
    alpha again. *)
Lemma pixel_alpha_mask_white ia :
  0 <= ia < 2 ^ 8 ->
  pixel_alpha ia 255 255 255 255 = ia * 65025.
Proof.
  intros Hia. apply Z.eqb_eq.
  apply (all_bytes_spec (fun i => pixel_alpha i 255 255 255 255 =? i * 65025));
    [vm_compute; reflexivity | exact Hia].
Qed.

End AlphaFacts.

(* ================================================================= *)
(** ** The literals *)

Module Literals.
Import Binary32 KoClipMaskApplicator.

(** The three weights are the binary32 numbers nearest to 0.2125,
    0.7154 and 0.0721 (the correctly rounded quotients). *)
Lemma lum_literals :
  redLum = fdiv (of_int 2125) (of_int 10000) /\
  greenLum = fdiv (of_int 7154) (of_int 10000) /\
  blueLum = fdiv (of_int 721) (of_int 10000).
Proof. repeat split; vm_compute; reflexivity. Qed.

End Literals.

(* ================================================================= *)
(** ** The specification's claims *)

Import Binary32 Binary32Facts Mem xsimd KoClipMaskApplicator Pixelwise.
Import WordFacts PixelFacts RunFacts LoopFacts AlphaFacts.

(** *** The kernel at work on the concrete buffers *)

Example image_alphas_before :
  alpha_bytes Demo.mixed 0 6 = [2; 42; 82; 122; 162; 202].
Proof. reflexivity. Qed.

Example mixed_mask :
  alpha_bytes (applyLuminanceMask 4 Demo.mixed 0 100 6) 0 6 = [180; 31; 240; 12; 10; 200] /\
  alpha_bytes (fallbackLuminanceMask Demo.mixed 0 100 6) 0 6 = [180; 31; 240; 12; 10; 200] /\
  stores (applyLuminanceMask 4 Demo.mixed 0 100 6) = [0; 4; 8; 12; 16; 20].
Proof. repeat split; vm_compute; reflexivity. Qed.

Example white_mask :
  alpha_bytes (applyLuminanceMask 4 Demo.white 0 100 6) 0 6 = [2; 42; 82; 122; 162; 202].
Proof. vm_compute. reflexivity. Qed.

(** When the mask range overlaps the image range the scalar path
    reads mask bytes it has already rewritten, the vector path does
    not: the call is meant for separate buffers. *)
Remark overlapping_ranges :
  alpha_bytes (applyLuminanceMask 4 Demo.mixed 4 0 4) 4 4 = [243; 137; 104; 144] /\
  alpha_bytes (fallbackLuminanceMask Demo.mixed 4 0 4) 4 4 = [243; 151; 57; 235].
Proof. split; vm_compute; reflexivity. Qed.

(** The alpha byte after a run, from the run's three properties. *)
Lemma run_alpha_byte st st' p m n i :
  sep_run st st' p m n -> separate p m n -> 0 <= i < n ->
  mem st' (p + 4 * i + 3) = new_alpha (mem st) (p + 4 * i) (m + 4 * i).
Proof. intros (_ & _ & A) Hsep Hi. apply A; assumption. Qed.

(** The colour bytes of every pixel survive a run. *)
Lemma run_colour_bytes st st' p m n i t :
  sep_run st st' p m n -> 0 <= t < 3 -> mem st' (p + 4 * i + t) = mem st (p + 4 * i + t).
Proof. intros (F & _) Ht. apply F. intros (j & Hj & E). lia. Qed.

(** Two runs over the same pixels from the same state end in the same memory. *)
Lemma run_deterministic st sA sB p m n :
  sep_run st sA p m n -> sep_run st sB p m n -> separate p m n ->
  (forall x, mem sA x = mem sB x) /\ stores sA = stores sB.
Proof.
  intros (FA & LA & AA) (FB & LB & AB) Hsep. split.
  - intros x. destruct (touched_dec p n x) as [(i & Hi & ->) | Hx].
    + rewrite AA, AB by assumption. reflexivity.
    + rewrite FA, FB by assumption. reflexivity.
  - unfold logged in *. congruence.
Qed.

(** The new alpha byte as a number. *)
Lemma new_alpha_value mu pa ma :
  byte.unsigned (new_alpha mu pa ma) =
  rint (fmul (of_int (u8 mu (pa + 3)))
             (maskValueOf (u8 mu (ma + 3)) (u8 mu (ma + 2)) (u8 mu (ma + 1)) (u8 mu ma)))
  mod 2 ^ 8.
Proof.
  unfold new_alpha. rewrite byte.unsigned_of_Z. unfold byte.wrap.
  destruct (pixel_alpha_rint (u8 mu (pa + 3)) (u8 mu (ma + 3)) (u8 mu (ma + 2))
              (u8 mu (ma + 1)) (u8 mu ma)) as [E _]; try apply u8_range.
  rewrite E. reflexivity.
Qed.

(** The alpha byte of pixel [i] after the vectorised call. *)
Lemma applied_alpha W st p m n i :
  separate p m n -> 0 <= i < n ->
  u8 (mem (applyLuminanceMask W st p m n)) (p + 4 * i + 3) =
  rint (fmul (of_int (u8 (mem st) (p + 4 * i + 3)))
             (maskValueOf (u8 (mem st) (m + 4 * i + 3)) (u8 (mem st) (m + 4 * i + 2))
                          (u8 (mem st) (m + 4 * i + 1)) (u8 (mem st) (m + 4 * i))))
  mod 2 ^ 8.
Proof.
  intros Hsep Hi. unfold u8 at 1.
  rewrite (run_alpha_byte st _ p m n i (applyLuminanceMask_run W st p m n) Hsep Hi).
  apply new_alpha_value.
Qed.

(** C1 (as amended). For every pixel [i] of a call on separate
    buffers, the new alpha byte is the low 8 bits of the integer
    nearest to [imageAlpha_i * maskValue_i], where
    [maskValue_i = maskAlpha_i * (0.2125 * maskRed_i + 0.7154 *
    maskGreen_i + 0.0721 * maskBlue_i)] is computed in [float] on the
    raw channel bytes; the three colour bytes are carried through. *)
Theorem C1_alpha_formula W st p m n i :
  separate p m n -> 0 <= i < n ->
  u8 (mem (applyLuminanceMask W st p m n)) (p + 4 * i + 3) =
    rint (fmul (of_int (u8 (mem st) (p + 4 * i + 3)))
               (maskValueOf (u8 (mem st) (m + 4 * i + 3)) (u8 (mem st) (m + 4 * i + 2))
                            (u8 (mem st) (m + 4 * i + 1)) (u8 (mem st) (m + 4 * i))))
    mod 2 ^ 8 /\
  mem (applyLuminanceMask W st p m n) (p + 4 * i) = mem st (p + 4 * i) /\
  mem (applyLuminanceMask W st p m n) (p + 4 * i + 1) = mem st (p + 4 * i + 1) /\
  mem (applyLuminanceMask W st p m n) (p + 4 * i + 2) = mem st (p + 4 * i + 2).
Proof.
  intros Hsep Hi. pose proof (applyLuminanceMask_run W st p m n) as R.
  split; [apply applied_alpha; assumption |].
  pose proof (run_colour_bytes st _ p m n i 0 R ltac:(lia)) as E0.
  rewrite Z.add_0_r in E0.
  repeat split; [exact E0 | |]; apply (run_colour_bytes st _ p m n i); (exact R || lia).
Qed.

Lemma C1_alpha_formula_witness :
  separate 0 100 6 /\ 0 <= 5 < 6 /\
  u8 (mem (applyLuminanceMask 4 Demo.mixed 0 100 6)) (0 + 4 * 5 + 3) =
    rint (fmul (of_int (u8 (mem Demo.mixed) (0 + 4 * 5 + 3)))
               (maskValueOf (u8 (mem Demo.mixed) (100 + 4 * 5 + 3))
                            (u8 (mem Demo.mixed) (100 + 4 * 5 + 2))
                            (u8 (mem Demo.mixed) (100 + 4 * 5 + 1))
                            (u8 (mem Demo.mixed) (100 + 4 * 5))))
    mod 2 ^ 8.
Proof.
  assert (Hsep : separate 0 100 6) by (unfold separate; lia).
  assert (Hi : 0 <= 5 < 6) by lia.
  split; [exact Hsep | split; [exact Hi |]].
  exact (proj1 (C1_alpha_formula 4 Demo.mixed 0 100 6 5 Hsep Hi)).
Defined.

(** C1 as stated fails: the stored alpha is a byte, the rounded
    product is not.  Image alpha 2 under an opaque white mask: the
    rounded product is 130050, the stored alpha is 2. *)
Lemma C1_counterexample :
  u8 (mem (applyLuminanceMask 4 Demo.white 0 100 6)) (0 + 4 * 0 + 3) <>
  rint (fmul (of_int (u8 (mem Demo.white) (0 + 4 * 0 + 3)))
             (maskValueOf (u8 (mem Demo.white) (100 + 4 * 0 + 3))
                          (u8 (mem Demo.white) (100 + 4 * 0 + 2))
                          (u8 (mem Demo.white) (100 + 4 * 0 + 1))
                          (u8 (mem Demo.white) (100 + 4 * 0)))).
Proof. vm_compute. discriminate. Qed.

(** C2. On separate buffers the vectorised [applyLuminanceMask] (a
    vector part and a scalar remainder) and the scalar reference path
    [fallbackLuminanceMask] over the same pixels leave byte-identical
    memories, and make the same stores. *)
Theorem C2_vector_matches_scalar W st p m n :
  separate p m n ->
  (forall x, mem (applyLuminanceMask W st p m n) x = mem (fallbackLuminanceMask st p m n) x) /\
  stores (applyLuminanceMask W st p m n) = stores (fallbackLuminanceMask st p m n).
Proof.
  intros Hsep. apply (run_deterministic st _ _ p m n); [| | exact Hsep].
  - apply applyLuminanceMask_run.
  - apply fallbackLuminanceMask_run.
Qed.

Lemma C2_vector_matches_scalar_witness :
  separate 0 100 6 /\
  (forall x, mem (applyLuminanceMask 4 Demo.mixed 0 100 6) x =
             mem (fallbackLuminanceMask Demo.mixed 0 100 6) x).
Proof.
  assert (Hsep : separate 0 100 6) by (unfold separate; lia).
  split; [exact Hsep |].
  exact (proj1 (C2_vector_matches_scalar 4 Demo.mixed 0 100 6 Hsep)).
Defined.

(** C3. With [block = nPixels / W] and [block2 = nPixels % W]: the
    vector loop runs [block] iterations, each moving both cursors by
    [vectorPixelStride = 4 * W] bytes, and stores the first [block * W]
    pixels; the fallback is then called on the [block2] pixels that
    follow; the generic variant calls the fallback on all [nPixels].
    The stores of the call are one per pixel of [0..nPixels), in order. *)
Theorem C3_dispatch W st p m n :
  0 <= n ->
  n = Z.quot n (Zpos W) * Zpos W + Z.rem n (Zpos W) /\
  0 <= Z.rem n (Zpos W) < Zpos W /\
  vectorPixelStride W = 4 * Zpos W /\
  (forall k s q r, vector_loop W (S k) s q r =
     vector_loop W k (vector_body W s q r) (q + vectorPixelStride W) (r + vectorPixelStride W)) /\
  (exists stv,
     vector_loop W (Z.to_nat (Z.quot n (Zpos W))) st p m =
       (stv, p + 4 * Zpos W * Z.quot n (Zpos W), m + 4 * Zpos W * Z.quot n (Zpos W)) /\
     stores stv = stores st ++ pixel_addrs p (Z.quot n (Zpos W) * Zpos W) /\
     applyLuminanceMask W st p m n =
       fallbackLuminanceMask stv (p + 4 * Zpos W * Z.quot n (Zpos W))
                             (m + 4 * Zpos W * Z.quot n (Zpos W)) (Z.rem n (Zpos W)) /\
     stores (applyLuminanceMask W st p m n) =
       stores stv ++ pixel_addrs (p + 4 * Zpos W * Z.quot n (Zpos W)) (Z.rem n (Zpos W))) /\
  stores (applyLuminanceMask W st p m n) = stores st ++ pixel_addrs p n /\
  applyLuminanceMask_generic st p m n = fallbackLuminanceMask st p m n /\
  stores (applyLuminanceMask_generic st p m n) = stores st ++ pixel_addrs p n /\
  NoDup (pixel_addrs p n) /\
  (forall a, In a (pixel_addrs p n) <-> exists i, 0 <= i < n /\ a = p + 4 * i).
Proof.
  intros Hn. destruct (blocks W n Hn) as (Hq & Hr & En).
  split; [lia |]. split; [exact Hr |]. split; [reflexivity |]. split; [reflexivity |].
  split.
  - destruct (vector_loop_run W (Z.to_nat (Z.quot n (Zpos W))) st p m) as (stv & E & R).
    rewrite Z2Nat.id in E, R by exact Hq. unfold vectorPixelStride in E.
    exists stv. split; [exact E |]. split.
    + destruct R as (_ & L & _). unfold logged in L. rewrite L. do 2 f_equal. lia.
    + unfold applyLuminanceMask. rewrite E. split; [reflexivity |].
      destruct (fallbackLuminanceMask_run stv (p + 4 * Zpos W * Z.quot n (Zpos W))
                  (m + 4 * Zpos W * Z.quot n (Zpos W)) (Z.rem n (Zpos W))) as (_ & L & _).
      exact L.
  - split; [| split; [reflexivity | split; [| split]]].
    + destruct (applyLuminanceMask_run W st p m n) as (_ & L & _). exact L.
    + destruct (fallbackLuminanceMask_run st p m n) as (_ & L & _). exact L.
    + apply NoDup_pixel_addrs.
    + intros a. apply in_pixel_addrs.
Qed.

Lemma C3_dispatch_witness :
  0 <= 37 /\
  37 = Z.quot 37 8 * 8 + Z.rem 37 8 /\
  stores (applyLuminanceMask 8 Demo.mixed 0 100 37) =
    stores Demo.mixed ++ pixel_addrs 0 37.
Proof.
  assert (Hn : 0 <= 37) by lia.
  pose proof (C3_dispatch 8 Demo.mixed 0 100 37 Hn) as (H1 & _ & _ & _ & _ & H2 & _).
  exact (conj Hn (conj H1 H2)).
Defined.

(** C4. Every call leaves the low 24 bits (red, green, blue) of every
    image pixel as they were; what changes in memory is alpha bytes of
    the [nPixels] image pixels and nothing else. *)
Theorem C4_colour_channels_kept W st p m n i :
  0 <= i < n ->
  Z.land (load_u32 (mem (applyLuminanceMask W st p m n)) (p + 4 * i)) colorChannelsMask =
    Z.land (load_u32 (mem st) (p + 4 * i)) colorChannelsMask /\
  Z.land (load_u32 (mem (applyLuminanceMask_generic st p m n)) (p + 4 * i)) colorChannelsMask =
    Z.land (load_u32 (mem st) (p + 4 * i)) colorChannelsMask /\
  (forall x, ~ touched p n x -> mem (applyLuminanceMask W st p m n) x = mem st x) /\
  (forall x, ~ touched p n x -> mem (applyLuminanceMask_generic st p m n) x = mem st x).
Proof.
  intros Hi.
  assert (G : forall st', sep_run st st' p m n ->
            Z.land (load_u32 (mem st') (p + 4 * i)) colorChannelsMask =
            Z.land (load_u32 (mem st) (p + 4 * i)) colorChannelsMask).
  { intros st' R. change colorChannelsMask with (Z.ones 24).
    rewrite !Z.land_ones by lia.
    destruct (load_u32_channels (mem st') (p + 4 * i)) as (_ & _ & _ & _ & ->).
    destruct (load_u32_channels (mem st) (p + 4 * i)) as (_ & _ & _ & _ & ->).
    unfold u8. rewrite !(run_colour_bytes st st' p m n i) by (exact R || lia).
    pose proof (run_colour_bytes st st' p m n i 0 R ltac:(lia)) as E0.
    rewrite Z.add_0_r in E0. rewrite E0. reflexivity. }
  split; [apply G, applyLuminanceMask_run |].
  split; [apply G, fallbackLuminanceMask_run |].
  split.
  - destruct (applyLuminanceMask_run W st p m n) as (F & _). exact F.
  - destruct (fallbackLuminanceMask_run st p m n) as (F & _). exact F.
Qed.

Lemma C4_colour_channels_kept_witness :
  0 <= 5 < 6 /\
  Z.land (load_u32 (mem (applyLuminanceMask 4 Demo.mixed 0 100 6)) (0 + 4 * 5)) colorChannelsMask =
    Z.land (load_u32 (mem Demo.mixed) (0 + 4 * 5)) colorChannelsMask.
Proof.
  assert (Hi : 0 <= 5 < 6) by lia.
  exact (conj Hi (proj1 (C4_colour_channels_kept 4 Demo.mixed 0 100 6 5 Hi))).
Defined.

(** C5. There is no clamp: the stored alpha is the low 8 bits of the
    rounded product, also when that product exceeds 255; it is 255
    only when those 8 bits are all set. *)
Theorem C5_alpha_wraps W st p m n i :
  separate p m n -> 0 <= i < n ->
  255 < rint (fmul (of_int (u8 (mem st) (p + 4 * i + 3)))
                   (maskValueOf (u8 (mem st) (m + 4 * i + 3)) (u8 (mem st) (m + 4 * i + 2))
                                (u8 (mem st) (m + 4 * i + 1)) (u8 (mem st) (m + 4 * i)))) ->
  u8 (mem (applyLuminanceMask W st p m n)) (p + 4 * i + 3) =
    Z.land (rint (fmul (of_int (u8 (mem st) (p + 4 * i + 3)))
                       (maskValueOf (u8 (mem st) (m + 4 * i + 3)) (u8 (mem st) (m + 4 * i + 2))
                                    (u8 (mem st) (m + 4 * i + 1)) (u8 (mem st) (m + 4 * i)))))
           0xFF /\
  (u8 (mem (applyLuminanceMask W st p m n)) (p + 4 * i + 3) = 255 <->
   rint (fmul (of_int (u8 (mem st) (p + 4 * i + 3)))
              (maskValueOf (u8 (mem st) (m + 4 * i + 3)) (u8 (mem st) (m + 4 * i + 2))
                           (u8 (mem st) (m + 4 * i + 1)) (u8 (mem st) (m + 4 * i))))
   mod 2 ^ 8 = 255).
Proof.
  intros Hsep Hi _. rewrite (applied_alpha W st p m n i Hsep Hi).
  change 0xFF with (Z.ones 8). rewrite Z.land_ones by lia.
  split; [reflexivity | tauto].
Qed.

Lemma C5_alpha_wraps_witness :
  separate 0 100 6 /\ 0 <= 5 < 6 /\
  255 < rint (fmul (of_int (u8 (mem Demo.white) (0 + 4 * 5 + 3)))
                   (maskValueOf (u8 (mem Demo.white) (100 + 4 * 5 + 3))
                                (u8 (mem Demo.white) (100 + 4 * 5 + 2))
                                (u8 (mem Demo.white) (100 + 4 * 5 + 1))
                                (u8 (mem Demo.white) (100 + 4 * 5)))) /\
  u8 (mem (applyLuminanceMask 4 Demo.white 0 100 6)) (0 + 4 * 5 + 3) =
    Z.land (rint (fmul (of_int (u8 (mem Demo.white) (0 + 4 * 5 + 3)))
                       (maskValueOf (u8 (mem Demo.white) (100 + 4 * 5 + 3))
                                    (u8 (mem Demo.white) (100 + 4 * 5 + 2))
                                    (u8 (mem Demo.white) (100 + 4 * 5 + 1))
                                    (u8 (mem Demo.white) (100 + 4 * 5)))))
           0xFF.
Proof.
  assert (Hsep : separate 0 100 6) by (unfold separate; lia).
  assert (Hi : 0 <= 5 < 6) by lia.
  assert (Hbig : 255 < rint (fmul (of_int (u8 (mem Demo.white) (0 + 4 * 5 + 3)))
                   (maskValueOf (u8 (mem Demo.white) (100 + 4 * 5 + 3))
                                (u8 (mem Demo.white) (100 + 4 * 5 + 2))
                                (u8 (mem Demo.white) (100 + 4 * 5 + 1))
                                (u8 (mem Demo.white) (100 + 4 * 5))))) by (vm_compute; reflexivity).
  exact (conj Hsep (conj Hi (conj Hbig
           (proj1 (C5_alpha_wraps 4 Demo.white 0 100 6 5 Hsep Hi Hbig))))).
Defined.

(** C6. The new alpha of pixel [i] is a function of the image alpha
    byte and the four mask bytes of pixel [i] alone; and a call on
    the first [k] pixels followed by a call on the other
    [nPixels - k], both pointers moved on by [4 * k] bytes, leaves the
    memory (and makes the stores) of one call on all [nPixels]. *)
Theorem C6_split_and_locality W st st2 p m n k i :
  separate p m n -> 0 <= k <= n -> 0 <= i < n ->
  mem st2 (p + 4 * i + 3) = mem st (p + 4 * i + 3) ->
  (forall t, 0 <= t < 4 -> mem st2 (m + 4 * i + t) = mem st (m + 4 * i + t)) ->
  mem (applyLuminanceMask W st2 p m n) (p + 4 * i + 3) =
    mem (applyLuminanceMask W st p m n) (p + 4 * i + 3) /\
  (forall x,
     mem (applyLuminanceMask W (applyLuminanceMask W st p m k) (p + 4 * k) (m + 4 * k) (n - k)) x =
     mem (applyLuminanceMask W st p m n) x) /\
  stores (applyLuminanceMask W (applyLuminanceMask W st p m k) (p + 4 * k) (m + 4 * k) (n - k)) =
    stores (applyLuminanceMask W st p m n).
Proof.
  intros Hsep Hk Hi Ea Em. split.
  - rewrite (run_alpha_byte st2 _ p m n i (applyLuminanceMask_run W st2 p m n) Hsep Hi).
    rewrite (run_alpha_byte st _ p m n i (applyLuminanceMask_run W st p m n) Hsep Hi).
    apply new_alpha_ext.
    + exact Ea.
    + exact Em.
  - apply (run_deterministic st _ _ p m n); [| apply applyLuminanceMask_run | exact Hsep].
    replace n with (k + (n - k)) at 2 by lia.
    eapply sep_run_seq; [lia | lia | apply applyLuminanceMask_run | apply applyLuminanceMask_run].
Qed.

Lemma C6_split_and_locality_witness :
  separate 0 100 6 /\ 0 <= 3 <= 6 /\ 0 <= 5 < 6 /\
  mem Demo.mixed' (0 + 4 * 5 + 3) = mem Demo.mixed (0 + 4 * 5 + 3) /\
  (forall t, 0 <= t < 4 -> mem Demo.mixed' (100 + 4 * 5 + t) = mem Demo.mixed (100 + 4 * 5 + t)) /\
  mem (applyLuminanceMask 4 Demo.mixed' 0 100 6) (0 + 4 * 5 + 3) =
    mem (applyLuminanceMask 4 Demo.mixed 0 100 6) (0 + 4 * 5 + 3) /\
  (forall x,
     mem (applyLuminanceMask 4 (applyLuminanceMask 4 Demo.mixed 0 100 3)
                             (0 + 4 * 3) (100 + 4 * 3) (6 - 3)) x =
     mem (applyLuminanceMask 4 Demo.mixed 0 100 6) x).
Proof.
  assert (Hsep : separate 0 100 6) by (unfold separate; lia).
  assert (Hk : 0 <= 3 <= 6) by lia.
  assert (Hi : 0 <= 5 < 6) by lia.
  assert (Ea : mem Demo.mixed' (0 + 4 * 5 + 3) = mem Demo.mixed (0 + 4 * 5 + 3)) by reflexivity.
  assert (Em : forall t, 0 <= t < 4 ->
               mem Demo.mixed' (100 + 4 * 5 + t) = mem Demo.mixed (100 + 4 * 5 + t)).
  { intros t Ht.
    assert (Ht' : t = 0 \/ t = 1 \/ t = 2 \/ t = 3) by lia.
    destruct Ht' as [-> | [-> | [-> | ->]]]; reflexivity. }
  pose proof (C6_split_and_locality 4 Demo.mixed Demo.mixed' 0 100 6 3 5 Hsep Hk Hi Ea Em)
    as (H1 & H2 & _).
  exact (conj Hsep (conj Hk (conj Hi (conj Ea (conj Em (conj H1 H2)))))).
Defined.

(** C7. If the alpha byte of every mask pixel is 0, the alpha byte of
    every image pixel is 0 after the call, whatever the image alphas
    and the mask colours were. *)
Theorem C7_clear_mask W st p m n i :
  separate p m n ->
  (forall j, 0 <= j < n -> u8 (mem st) (m + 4 * j + 3) = 0) ->
  0 <= i < n ->
  u8 (mem (applyLuminanceMask W st p m n)) (p + 4 * i + 3) = 0.
Proof.
  intros Hsep Hclear Hi. unfold u8 at 1.
  rewrite (run_alpha_byte st _ p m n i (applyLuminanceMask_run W st p m n) Hsep Hi).
  unfold new_alpha. rewrite (Hclear i Hi).
  destruct (pixel_alpha_mask_clear (u8 (mem st) (p + 4 * i + 3)) (u8 (mem st) (m + 4 * i + 2))
              (u8 (mem st) (m + 4 * i + 1)) (u8 (mem st) (m + 4 * i))) as [_ E];
    try apply u8_range.
  rewrite E. reflexivity.
Qed.

Lemma C7_clear_mask_witness :
  separate 0 100 6 /\
  (forall j, 0 <= j < 6 -> u8 (mem Demo.clear) (100 + 4 * j + 3) = 0) /\
  0 <= 4 < 6 /\
  u8 (mem (applyLuminanceMask 4 Demo.clear 0 100 6)) (0 + 4 * 4 + 3) = 0.
Proof.
  assert (Hsep : separate 0 100 6) by (unfold separate; lia).
  assert (Hclear : forall j, 0 <= j < 6 -> u8 (mem Demo.clear) (100 + 4 * j + 3) = 0).
  { intros j Hj.
    assert (Hj' : j = 0 \/ j = 1 \/ j = 2 \/ j = 3 \/ j = 4 \/ j = 5) by lia.
    destruct Hj' as [-> | [-> | [-> | [-> | [-> | ->]]]]]; reflexivity. }
  assert (Hi : 0 <= 4 < 6) by lia.
  exact (conj Hsep (conj Hclear (conj Hi (C7_clear_mask 4 Demo.clear 0 100 6 4 Hsep Hclear Hi)))).
Defined.

(** The value of the opaque white mask pixel. *)
Lemma white_maskValue :
  maskValueOf 255 255 255 255 = of_int 65025 /\
  fst (num_den (maskValueOf 255 255 255 255)) * 10000 =
    255 * (2125 + 7154 + 721) * 255 * snd (num_den (maskValueOf 255 255 255 255)).
Proof. split; vm_compute; reflexivity. Qed.

(** C8. For an opaque white mask pixel, [maskValue] is
    [255 * (0.2125 + 0.7154 + 0.0721) * 255 = 65025] exactly; the
    stored alpha is the rounded product [imageAlpha * 65025]
    truncated to 8 bits, and that is the image alpha itself.  For
    image alpha 200 the rounded product is 13005000 and the stored
    byte is 200. *)
Theorem C8_white_mask W st p m n i :
  separate p m n -> 0 <= i < n ->
  (forall t, 0 <= t < 4 -> u8 (mem st) (m + 4 * i + t) = 255) ->
  maskValueOf 255 255 255 255 = of_int 65025 /\
  fst (num_den (maskValueOf 255 255 255 255)) * 10000 =
    255 * (2125 + 7154 + 721) * 255 * snd (num_den (maskValueOf 255 255 255 255)) /\
  rint (fmul (of_int (u8 (mem st) (p + 4 * i + 3))) (maskValueOf 255 255 255 255)) =
    u8 (mem st) (p + 4 * i + 3) * 65025 /\
  u8 (mem (applyLuminanceMask W st p m n)) (p + 4 * i + 3) =
    rint (fmul (of_int (u8 (mem st) (p + 4 * i + 3))) (maskValueOf 255 255 255 255)) mod 2 ^ 8 /\
  mem (applyLuminanceMask W st p m n) (p + 4 * i + 3) = mem st (p + 4 * i + 3) /\
  rint (fmul (of_int 200) (maskValueOf 255 255 255 255)) = 13005000 /\
  13005000 mod 2 ^ 8 = 200.
Proof.
  intros Hsep Hi Hwhite.
  pose proof (u8_range (mem st) (p + 4 * i + 3)) as Hia.
  assert (Er : rint (fmul (of_int (u8 (mem st) (p + 4 * i + 3))) (maskValueOf 255 255 255 255)) =
               u8 (mem st) (p + 4 * i + 3) * 65025).
  { rewrite <- (pixel_alpha_mask_white _ Hia).
    destruct (pixel_alpha_rint (u8 (mem st) (p + 4 * i + 3)) 255 255 255 255) as [E _];
      [exact Hia | change (2 ^ 8) with 256; lia .. |].
    symmetry. exact E. }
  assert (Eb : u8 (mem (applyLuminanceMask W st p m n)) (p + 4 * i + 3) =
               rint (fmul (of_int (u8 (mem st) (p + 4 * i + 3))) (maskValueOf 255 255 255 255))
               mod 2 ^ 8).
  { rewrite (applied_alpha W st p m n i Hsep Hi).
    rewrite (Hwhite 3), (Hwhite 2), (Hwhite 1) by lia.
    rewrite <- (Z.add_0_r (m + 4 * i)), (Hwhite 0) by lia. reflexivity. }
  split; [apply white_maskValue |]. split; [apply white_maskValue |].
  split; [exact Er |]. split; [exact Eb |].
  split; [| split; [vm_compute; reflexivity | reflexivity]].
  apply byte.unsigned_inj. fold (u8 (mem (applyLuminanceMask W st p m n)) (p + 4 * i + 3)).
  fold (u8 (mem st) (p + 4 * i + 3)). rewrite Eb, Er.
  change (2 ^ 8) with 256 in *.
  replace (u8 (mem st) (p + 4 * i + 3) * 65025)
    with (u8 (mem st) (p + 4 * i + 3) + u8 (mem st) (p + 4 * i + 3) * 254 * 256) by lia.
  rewrite Z.mod_add by lia. apply Z.mod_small. exact Hia.
Qed.

Lemma C8_white_mask_witness :
  separate 0 100 6 /\ 0 <= 5 < 6 /\
  (forall t, 0 <= t < 4 -> u8 (mem Demo.white) (100 + 4 * 5 + t) = 255) /\
  mem (applyLuminanceMask 4 Demo.white 0 100 6) (0 + 4 * 5 + 3) =
    mem Demo.white (0 + 4 * 5 + 3).
Proof.
  assert (Hsep : separate 0 100 6) by (unfold separate; lia).
  assert (Hi : 0 <= 5 < 6) by lia.
  assert (Hwhite : forall t, 0 <= t < 4 -> u8 (mem Demo.white) (100 + 4 * 5 + t) = 255).
  { intros t Ht.
    assert (Ht' : t = 0 \/ t = 1 \/ t = 2 \/ t = 3) by lia.
    destruct Ht' as [-> | [-> | [-> | ->]]]; reflexivity. }
  pose proof (C8_white_mask 4 Demo.white 0 100 6 5 Hsep Hi Hwhite) as (_ & _ & _ & _ & H & _).
  exact (conj Hsep (conj Hi (conj Hwhite H))).
Defined.

(** C9 (as amended). A call whose mask range does not overlap its
    image range leaves every byte of the mask range as it was: all
    its stores are the pixel stores of the image range, none of which
    covers a mask byte. *)
Theorem C9_mask_not_written W st p m n a :
  separate p m n -> m <= a < m + 4 * n ->
  mem (applyLuminanceMask W st p m n) a = mem st a /\
  mem (applyLuminanceMask_generic st p m n) a = mem st a /\
  stores (applyLuminanceMask W st p m n) = stores st ++ pixel_addrs p n /\
  stores (applyLuminanceMask_generic st p m n) = stores st ++ pixel_addrs p n /\
  (forall q, In q (pixel_addrs p n) -> ~ (q <= a < q + 4)).
Proof.
  intros Hsep Ha.
  assert (Hx : ~ touched p n a).
  { intros (i & Hi & E). unfold separate in Hsep. lia. }
  destruct (applyLuminanceMask_run W st p m n) as (F1 & L1 & _).
  destruct (fallbackLuminanceMask_run st p m n) as (F2 & L2 & _).
  split; [apply F1, Hx |]. split; [apply F2, Hx |].
  split; [exact L1 |]. split; [exact L2 |].
  intros q Hq Hcov. apply in_pixel_addrs in Hq. destruct Hq as (i & Hi & ->).
  unfold separate in Hsep. lia.
Qed.

Lemma C9_mask_not_written_witness :
  separate 0 100 6 /\ 100 <= 107 < 100 + 4 * 6 /\
  mem (applyLuminanceMask 4 Demo.mixed 0 100 6) 107 = mem Demo.mixed 107.
Proof.
  assert (Hsep : separate 0 100 6) by (unfold separate; lia).
  assert (Ha : 100 <= 107 < 100 + 4 * 6) by lia.
  exact (conj Hsep (conj Ha (proj1 (C9_mask_not_written 4 Demo.mixed 0 100 6 107 Hsep Ha)))).
Defined.

(** C9 as stated, for every input, fails when the mask range is the
    image range ([maskPixels = pixels]): the stores through [pixels]
    then rewrite mask bytes.  Byte 3 of the mask range, the alpha of
    pixel 0, goes from 2 to 36. *)
Lemma C9_counterexample :
  0 <= 3 < 0 + 4 * 6 /\
  u8 (mem Demo.mixed) 3 = 2 /\
  u8 (mem (applyLuminanceMask 4 Demo.mixed 0 0 6)) 3 = 36 /\
  mem (applyLuminanceMask 4 Demo.mixed 0 0 6) 3 <> mem Demo.mixed 3.
Proof.
  split; [lia |]. split; [reflexivity |]. split; [vm_compute; reflexivity |].
  vm_compute. discriminate.
Qed.

(** C10. With [nPixels = 0] both variants return the state they were
    given: the vector loop runs no iteration ([0 / W = 0]), the
    fallback is called with the count [0 % W = 0], nothing is stored. *)
Theorem C10_no_pixels W st p m :
  Z.to_nat (Z.quot 0 (Zpos W)) = 0%nat /\
  Z.rem 0 (Zpos W) = 0 /\
  vector_loop W (Z.to_nat (Z.quot 0 (Zpos W))) st p m = (st, p, m) /\
  fallbackLuminanceMask st p m 0 = st /\
  applyLuminanceMask W st p m 0 = st /\
  applyLuminanceMask_generic st p m 0 = st.
Proof. repeat split. Qed.

(* ================================================================= *)
(** ** More about the kernel *)

Module MoreAlphaFacts.
Import Binary32 Binary32Facts Mem xsimd KoClipMaskApplicator Pixelwise AlphaFacts.

Lemma fmul_zero_l K x : below K x -> fmul (S754_zero false) x = S754_zero false.
Proof. intros B. below_cases x B as mx ex; reflexivity. Qed.

Lemma fmul_zero_r K x : below K x -> fmul x (S754_zero false) = S754_zero false.
Proof. intros B. below_cases x B as mx ex; reflexivity. Qed.

(** A transparent image pixel: [0 * maskValue] is [+0]. *)
Lemma pixel_alpha_transparent a r g b :
  0 <= a < 2 ^ 8 -> 0 <= r < 2 ^ 8 -> 0 <= g < 2 ^ 8 -> 0 <= b < 2 ^ 8 ->
  pixel_alpha 0 a r g b = 0.
Proof.
  intros Ha Hr Hg Hb. unfold pixel_alpha. change (of_int 0) with (S754_zero false).
  rewrite (fmul_zero_l 21) by (apply maskValueOf_below; assumption). reflexivity.
Qed.

(** A black mask pixel: the luminance is [+0], whatever the mask alpha. *)
Lemma pixel_alpha_mask_black ia a :
  0 <= ia < 2 ^ 8 -> 0 <= a < 2 ^ 8 -> pixel_alpha ia a 0 0 0 = 0.
Proof.
  intros Hia Ha. unfold pixel_alpha, maskValueOf.
  replace (fadd (fadd (fmul redLum (of_int 0)) (fmul greenLum (of_int 0)))
                (fmul blueLum (of_int 0)))
    with (S754_zero false) by (vm_compute; reflexivity).
  rewrite (fmul_zero_r 8) by (apply of_int_byte; exact Ha).
  rewrite (fmul_zero_r 8) by (apply of_int_byte; exact Hia). reflexivity.
Qed.

(** A white mask pixel of any opacity: every product is exact. *)
Lemma pixel_alpha_mask_white_colour ia a :
  0 <= ia < 2 ^ 8 -> 0 <= a < 2 ^ 8 ->
  pixel_alpha ia a 255 255 255 = ia * a * 255.
Proof.
  intros Hia Ha. unfold pixel_alpha, maskValueOf.
  replace (fadd (fadd (fmul redLum (of_int 255)) (fmul greenLum (of_int 255)))
                (fmul blueLum (of_int 255)))
    with (of_int 255) by (vm_compute; reflexivity).
  apply Z.eqb_eq.
  pose proof (all_bytes_spec
    (fun j => let mv := fmul (of_int j) (of_int 255) in
              all_bytes (fun i => to_int (fmul (of_int i) mv) =? i * j * 255)) a) as H.
  cbv beta zeta in H.
  apply (all_bytes_spec
           (fun i => to_int (fmul (of_int i) (fmul (of_int a) (of_int 255))) =? i * a * 255));
    [| exact Hia].
  apply H; [vm_compute; reflexivity | exact Ha].
Qed.

End MoreAlphaFacts.

(* ================================================================= *)
(** ** More about the loops *)

Module MoreLoopFacts.
Import Binary32 Binary32Facts Mem xsimd KoClipMaskApplicator Pixelwise.
Import WordFacts PixelFacts RunFacts LoopFacts AlphaFacts.

(** The new alpha byte as the truncated [int] of the conversion. *)
Lemma new_alpha_unsigned mu pa ma :
  byte.unsigned (new_alpha mu pa ma) =
  pixel_alpha (u8 mu (pa + 3)) (u8 mu (ma + 3)) (u8 mu (ma + 2)) (u8 mu (ma + 1)) (u8 mu ma)
  mod 2 ^ 8.
Proof. unfold new_alpha. rewrite byte.unsigned_of_Z. reflexivity. Qed.

Lemma new_alpha_formula mu pa ma :
  byte.unsigned (new_alpha mu pa ma) =
  rint (fmul (of_int (u8 mu (pa + 3)))
             (maskValueOf (u8 mu (ma + 3)) (u8 mu (ma + 2)) (u8 mu (ma + 1)) (u8 mu ma)))
  mod 2 ^ 8.
Proof.
  rewrite new_alpha_unsigned.
  destruct (pixel_alpha_rint (u8 mu (pa + 3)) (u8 mu (ma + 3)) (u8 mu (ma + 2))
              (u8 mu (ma + 1)) (u8 mu ma)) as [E _]; try apply u8_range.
  rewrite E. reflexivity.
Qed.

(** A run on a range that is its own mask range: a later part reads
    only pixels the earlier part has not reached. *)
Lemma own_mask_seq st st1 st2 p n1 n2 :
  0 <= n1 -> 0 <= n2 ->
  run (mem st) st st1 p p n1 ->
  run (mem st1) st1 st2 (p + 4 * n1) (p + 4 * n1) n2 ->
  run (mem st) st st2 p p (n1 + n2).
Proof.
  intros H1 H2 R1 (F2 & L2 & A2). eapply run_seq; [exact H1 | exact H2 | exact R1 |].
  split; [exact F2 | split; [exact L2 |]].
  intros i Hi. rewrite (A2 i Hi). destruct R1 as (F1 & _ & _).
  apply new_alpha_ext.
  - apply F1. intros (j & Hj & E). lia.
  - intros t Ht. apply F1. intros (j & Hj & E). lia.
Qed.

Lemma fallback_loop_own_mask k : forall st p,
  run (mem st) st (fallback_loop k st p p) p p (Z.of_nat k).
Proof.
  induction k as [| k IH]; intros st p.
  - apply run_nil.
  - cbn [fallback_loop]. replace (Z.of_nat (S k)) with (1 + Z.of_nat k) by lia.
    eapply own_mask_seq; [lia | lia | |].
    + apply store_pixel_run. reflexivity.
    + replace (p + 4 * 1) with (p + 4) by lia. apply IH.
Qed.

Lemma vector_loop_own_mask W k : forall st p,
  exists st',
    vector_loop W k st p p =
      (st', p + vectorPixelStride W * Z.of_nat k, p + vectorPixelStride W * Z.of_nat k) /\
    run (mem st) st st' p p (Zpos W * Z.of_nat k).
Proof.
  induction k as [| k IH]; intros st p.
  - exists st. cbn [vector_loop]. split.
    + change (Z.of_nat 0) with 0. rewrite !Z.mul_0_r, !Z.add_0_r. reflexivity.
    + rewrite Z.mul_0_r. apply run_nil.
  - cbn [vector_loop].
    destruct (IH (vector_body W st p p) (p + vectorPixelStride W)) as (st' & E & R).
    exists st'. split.
    + rewrite E. unfold vectorPixelStride. f_equal; [f_equal |]; lia.
    + replace (Zpos W * Z.of_nat (S k)) with (Zpos W + Zpos W * Z.of_nat k) by lia.
      eapply own_mask_seq; [lia | lia | apply vector_body_run |].
      unfold vectorPixelStride in R. exact R.
Qed.

Lemma fallbackLuminanceMask_own_mask st p n :
  run (mem st) st (fallbackLuminanceMask st p p n) p p (Z.max 0 n).
Proof.
  unfold fallbackLuminanceMask.
  replace (Z.max 0 n) with (Z.of_nat (Z.to_nat n)) by lia.
  apply fallback_loop_own_mask.
Qed.

Lemma applyLuminanceMask_own_mask W st p n :
  0 <= n -> run (mem st) st (applyLuminanceMask W st p p n) p p n.
Proof.
  intros Hn. unfold applyLuminanceMask.
  destruct (vector_loop_own_mask W (Z.to_nat (Z.quot n (Zpos W))) st p) as (st' & E & R).
  rewrite E. destruct (blocks W n Hn) as (Hq & Hr & En).
  rewrite Z2Nat.id in * by exact Hq.
  remember (Z.quot n (Zpos W)) as q eqn:Eq. remember (Z.rem n (Zpos W)) as r eqn:Er.
  rewrite En.
  eapply own_mask_seq; [lia | lia | exact R |].
  unfold vectorPixelStride.
  replace (p + 4 * Zpos W * q) with (p + 4 * (Zpos W * q)) by lia.
  replace r with (Z.max 0 r) at 2 by lia.
  apply fallbackLuminanceMask_own_mask.
Qed.

End MoreLoopFacts.

(* ================================================================= *)
(** ** Further properties of the kernel *)

Import MoreAlphaFacts MoreLoopFacts.

(** X1. The vector loop on its own (no fallback involved): after [k]
    iterations on separate buffers every one of the first [W * k]
    pixels has the alpha byte of the formula and its colour bytes as
    before, and both cursors are [k] strides further. *)
Theorem X1_vector_loop_pixels W k st p m i :
  separate p m (Zpos W * Z.of_nat k) -> 0 <= i < Zpos W * Z.of_nat k ->
  u8 (mem (fst (fst (vector_loop W k st p m)))) (p + 4 * i + 3) =
    rint (fmul (of_int (u8 (mem st) (p + 4 * i + 3)))
               (maskValueOf (u8 (mem st) (m + 4 * i + 3)) (u8 (mem st) (m + 4 * i + 2))
                            (u8 (mem st) (m + 4 * i + 1)) (u8 (mem st) (m + 4 * i))))
    mod 2 ^ 8 /\
  (forall t, 0 <= t < 3 ->
     mem (fst (fst (vector_loop W k st p m))) (p + 4 * i + t) = mem st (p + 4 * i + t)) /\
  snd (fst (vector_loop W k st p m)) = p + 4 * Zpos W * Z.of_nat k /\
  snd (vector_loop W k st p m) = m + 4 * Zpos W * Z.of_nat k.
Proof.
  intros Hsep Hi. destruct (vector_loop_run W k st p m) as (st' & E & R).
  rewrite E. cbn [fst snd]. unfold vectorPixelStride. repeat split.
  - unfold u8 at 1. rewrite (run_alpha_byte st st' p m _ i R Hsep Hi).
    apply new_alpha_formula.
  - intros t Ht. apply (run_colour_bytes st st' p m _ i t R Ht).
Qed.

Lemma X1_vector_loop_pixels_witness :
  separate 0 100 (4 * Z.of_nat 1) /\ 0 <= 3 < 4 * Z.of_nat 1 /\
  u8 (mem (fst (fst (vector_loop 4 1 Demo.mixed 0 100)))) (0 + 4 * 3 + 3) =
    rint (fmul (of_int (u8 (mem Demo.mixed) (0 + 4 * 3 + 3)))
               (maskValueOf (u8 (mem Demo.mixed) (100 + 4 * 3 + 3))
                            (u8 (mem Demo.mixed) (100 + 4 * 3 + 2))
                            (u8 (mem Demo.mixed) (100 + 4 * 3 + 1))
                            (u8 (mem Demo.mixed) (100 + 4 * 3))))
    mod 2 ^ 8.
Proof.
  assert (Hsep : separate 0 100 (4 * Z.of_nat 1)) by (unfold separate; cbn; lia).
  assert (Hi : 0 <= 3 < 4 * Z.of_nat 1) by (cbn; lia).
  exact (conj Hsep (conj Hi (proj1 (X1_vector_loop_pixels 4 1 Demo.mixed 0 100 3 Hsep Hi)))).
Defined.

(** X2. One iteration of the vector loop loads both batches before it
    stores: whatever the two pointers are (overlapping ranges
    included), every lane's new alpha is computed from the memory
    before the iteration, and the iteration makes [W] pixel stores. *)
Theorem X2_batch_loads_before_store W st p m i :
  0 <= i < Zpos W ->
  u8 (mem (vector_body W st p m)) (p + 4 * i + 3) =
    rint (fmul (of_int (u8 (mem st) (p + 4 * i + 3)))
               (maskValueOf (u8 (mem st) (m + 4 * i + 3)) (u8 (mem st) (m + 4 * i + 2))
                            (u8 (mem st) (m + 4 * i + 1)) (u8 (mem st) (m + 4 * i))))
    mod 2 ^ 8 /\
  stores (vector_body W st p m) = stores st ++ pixel_addrs p (Zpos W).
Proof.
  intros Hi. destruct (vector_body_run W st p m) as (_ & L & A). split; [| exact L].
  unfold u8 at 1. rewrite (A i Hi). apply new_alpha_formula.
Qed.

Lemma X2_batch_loads_before_store_witness :
  0 <= 1 < 4 /\
  u8 (mem (vector_body 4 Demo.mixed 4 0)) (4 + 4 * 1 + 3) =
    rint (fmul (of_int (u8 (mem Demo.mixed) (4 + 4 * 1 + 3)))
               (maskValueOf (u8 (mem Demo.mixed) (0 + 4 * 1 + 3))
                            (u8 (mem Demo.mixed) (0 + 4 * 1 + 2))
                            (u8 (mem Demo.mixed) (0 + 4 * 1 + 1))
                            (u8 (mem Demo.mixed) (0 + 4 * 1))))
    mod 2 ^ 8.
Proof.
  assert (Hi : 0 <= 1 < 4) by lia.
  exact (conj Hi (proj1 (X2_batch_loads_before_store 4 Demo.mixed 4 0 1 Hi))).
Defined.

(** X3. A count below the batch width never enters the vector loop:
    the call is the fallback call on the same pointers, which is the
    generic variant; a count that is not positive changes nothing. *)
Theorem X3_short_counts W st p m n :
  n < Zpos W ->
  Z.to_nat (Z.quot n (Zpos W)) = 0%nat /\
  applyLuminanceMask W st p m n = fallbackLuminanceMask st p m (Z.rem n (Zpos W)) /\
  applyLuminanceMask W st p m n = applyLuminanceMask_generic st p m n /\
  (n <= 0 -> applyLuminanceMask W st p m n = st).
Proof.
  intros Hn.
  assert (Hq : Z.to_nat (Z.quot n (Zpos W)) = 0%nat).
  { destruct (Z_le_dec 0 n) as [H0 | H0].
    - rewrite Z.quot_small by lia. reflexivity.
    - destruct (blocks_neg W n ltac:(lia)) as [Hq _]. lia. }
  assert (E : applyLuminanceMask W st p m n =
              fallbackLuminanceMask st p m (Z.rem n (Zpos W))).
  { unfold applyLuminanceMask. rewrite Hq. reflexivity. }
  split; [exact Hq |]. split; [exact E |]. split.
  - rewrite E. unfold applyLuminanceMask_generic, fallbackLuminanceMask.
    destruct (Z_le_dec 0 n) as [H0 | H0].
    + rewrite Z.rem_small by lia. reflexivity.
    + destruct (blocks_neg W n ltac:(lia)) as [_ Hr].
      replace (Z.to_nat (Z.rem n (Zpos W))) with 0%nat by lia.
      replace (Z.to_nat n) with 0%nat by lia. reflexivity.
  - intros H0. rewrite E. unfold fallbackLuminanceMask.
    assert (Hr : Z.rem n (Zpos W) <= 0).
    { destruct (Z.eq_dec n 0) as [-> | Hne]; [rewrite Z.rem_0_l by lia; lia |].
      apply (blocks_neg W n). lia. }
    replace (Z.to_nat (Z.rem n (Zpos W))) with 0%nat by lia. reflexivity.
Qed.

Lemma X3_short_counts_witness :
  3 < 4 /\
  applyLuminanceMask 4 Demo.mixed 0 100 3 = applyLuminanceMask_generic Demo.mixed 0 100 3.
Proof.
  assert (Hn : 3 < 4) by lia.
  pose proof (X3_short_counts 4 Demo.mixed 0 100 3 Hn) as (_ & _ & H & _).
  exact (conj Hn H).
Defined.

(** X4. The batch width does not show in the result: on separate
    buffers any two widths leave the same memory and make the same
    stores. *)
Theorem X4_width_independent W1 W2 st p m n :
  separate p m n ->
  (forall x, mem (applyLuminanceMask W1 st p m n) x = mem (applyLuminanceMask W2 st p m n) x) /\
  stores (applyLuminanceMask W1 st p m n) = stores (applyLuminanceMask W2 st p m n).
Proof.
  intros Hsep.
  apply (run_deterministic st _ _ p m n); [| | exact Hsep]; apply applyLuminanceMask_run.
Qed.

Lemma X4_width_independent_witness :
  separate 0 100 6 /\
  (forall x, mem (applyLuminanceMask 4 Demo.mixed 0 100 6) x =
             mem (applyLuminanceMask 2 Demo.mixed 0 100 6) x).
Proof.
  assert (Hsep : separate 0 100 6) by (unfold separate; lia).
  exact (conj Hsep (proj1 (X4_width_independent 4 2 Demo.mixed 0 100 6 Hsep))).
Defined.

(** X5. Calls on the two parts of a range commute: on separate
    buffers, the call on the last [nPixels - k] pixels followed by the
    call on the first [k] leaves the memory of one call on all
    [nPixels]; only the order of the stores differs. *)
Theorem X5_order_independent W st p m n k :
  separate p m n -> 0 <= k <= n ->
  (forall x,
     mem (applyLuminanceMask W (applyLuminanceMask W st (p + 4 * k) (m + 4 * k) (n - k)) p m k) x =
     mem (applyLuminanceMask W st p m n) x) /\
  stores (applyLuminanceMask W (applyLuminanceMask W st (p + 4 * k) (m + 4 * k) (n - k)) p m k) =
    stores st ++ pixel_addrs (p + 4 * k) (n - k) ++ pixel_addrs p k.
Proof.
  intros Hsep Hk.
  set (sA := applyLuminanceMask W st (p + 4 * k) (m + 4 * k) (n - k)).
  destruct (applyLuminanceMask_run W st (p + 4 * k) (m + 4 * k) (n - k)) as (FA & LA & AA).
  fold sA in FA, LA, AA.
  destruct (applyLuminanceMask_run W sA p m k) as (FB & LB & AB).
  destruct (applyLuminanceMask_run W st p m n) as (FW & _ & AW).
  assert (SA : separate (p + 4 * k) (m + 4 * k) (n - k)) by (unfold separate in *; lia).
  assert (SB : separate p m k) by (unfold separate in *; lia).
  split.
  - intros x. destruct (touched_dec p n x) as [(i & Hi & ->) | Hx].
    + rewrite (AW Hsep i Hi). destruct (Z_lt_dec i k) as [Hlt | Hge].
      * rewrite (AB SB i ltac:(lia)). apply new_alpha_ext.
        -- apply FA. intros (j & Hj & E). lia.
        -- intros t Ht. apply FA. intros (j & Hj & E). unfold separate in Hsep. lia.
      * rewrite FB by (intros (j & Hj & E); lia).
        specialize (AA SA (i - k) ltac:(lia)).
        replace (p + 4 * k + 4 * (i - k)) with (p + 4 * i) in AA by lia.
        replace (m + 4 * k + 4 * (i - k)) with (m + 4 * i) in AA by lia.
        exact AA.
    + rewrite FW by exact Hx. rewrite FB, FA; [reflexivity | |].
      * intros Ht. apply Hx. replace n with (k + (n - k)) by lia.
        apply touched_split; [lia | lia | right; exact Ht].
      * intros Ht. apply Hx. replace n with (k + (n - k)) by lia.
        apply touched_split; [lia | lia | left; exact Ht].
  - unfold logged in LA, LB. rewrite LB, LA, app_assoc. reflexivity.
Qed.

Lemma X5_order_independent_witness :
  separate 0 100 6 /\ 0 <= 2 <= 6 /\
  (forall x,
     mem (applyLuminanceMask 4 (applyLuminanceMask 4 Demo.mixed (0 + 4 * 2) (100 + 4 * 2) (6 - 2))
                             0 100 2) x =
     mem (applyLuminanceMask 4 Demo.mixed 0 100 6) x).
Proof.
  assert (Hsep : separate 0 100 6) by (unfold separate; lia).
  assert (Hk : 0 <= 2 <= 6) by lia.
  exact (conj Hsep (conj Hk (proj1 (X5_order_independent 4 Demo.mixed 0 100 6 2 Hsep Hk)))).
Defined.

(** The alpha byte of pixel [i] after the call, as the truncated
    [int] of the conversion. *)
Lemma applied_pixel_alpha W st p m n i :
  separate p m n -> 0 <= i < n ->
  u8 (mem (applyLuminanceMask W st p m n)) (p + 4 * i + 3) =
  pixel_alpha (u8 (mem st) (p + 4 * i + 3))
              (u8 (mem st) (m + 4 * i + 3)) (u8 (mem st) (m + 4 * i + 2))
              (u8 (mem st) (m + 4 * i + 1)) (u8 (mem st) (m + 4 * i))
  mod 2 ^ 8.
Proof.
  intros Hsep Hi. unfold u8 at 1.
  rewrite (run_alpha_byte st _ p m n i (applyLuminanceMask_run W st p m n) Hsep Hi).
  apply new_alpha_unsigned.
Qed.

(** X6. A fully transparent image pixel stays fully transparent,
    whatever its mask pixel is. *)
Theorem X6_transparent_stays W st p m n i :
  separate p m n -> 0 <= i < n ->
  u8 (mem st) (p + 4 * i + 3) = 0 ->
  u8 (mem (applyLuminanceMask W st p m n)) (p + 4 * i + 3) = 0.
Proof.
  intros Hsep Hi H0. rewrite (applied_pixel_alpha W st p m n i Hsep Hi), H0.
  rewrite pixel_alpha_transparent by apply u8_range. reflexivity.
Qed.

Lemma X6_transparent_stays_witness :
  separate 0 100 6 /\ 0 <= 5 < 6 /\
  u8 (mem Demo2.transparent) (0 + 4 * 5 + 3) = 0 /\
  u8 (mem (applyLuminanceMask 4 Demo2.transparent 0 100 6)) (0 + 4 * 5 + 3) = 0.
Proof.
  assert (Hsep : separate 0 100 6) by (unfold separate; lia).
  assert (Hi : 0 <= 5 < 6) by lia.
  assert (H0 : u8 (mem Demo2.transparent) (0 + 4 * 5 + 3) = 0) by reflexivity.
  exact (conj Hsep (conj Hi (conj H0
           (X6_transparent_stays 4 Demo2.transparent 0 100 6 5 Hsep Hi H0)))).
Defined.

(** X7. A black mask pixel (red, green and blue 0) makes the image
    pixel fully transparent, whatever the mask alpha and the image
    alpha are. *)
Theorem X7_black_mask W st p m n i :
  separate p m n -> 0 <= i < n ->
  (forall t, 0 <= t < 3 -> u8 (mem st) (m + 4 * i + t) = 0) ->
  u8 (mem (applyLuminanceMask W st p m n)) (p + 4 * i + 3) = 0.
Proof.
  intros Hsep Hi Hblack. rewrite (applied_pixel_alpha W st p m n i Hsep Hi).
  pose proof (Hblack 0 ltac:(lia)) as E0. rewrite Z.add_0_r in E0.
  rewrite (Hblack 2), (Hblack 1), E0 by lia.
  rewrite pixel_alpha_mask_black by apply u8_range. reflexivity.
Qed.

Lemma X7_black_mask_witness :
  separate 0 100 6 /\ 0 <= 5 < 6 /\
  (forall t, 0 <= t < 3 -> u8 (mem Demo2.black) (100 + 4 * 5 + t) = 0) /\
  u8 (mem (applyLuminanceMask 4 Demo2.black 0 100 6)) (0 + 4 * 5 + 3) = 0.
Proof.
  assert (Hsep : separate 0 100 6) by (unfold separate; lia).
  assert (Hi : 0 <= 5 < 6) by lia.
  assert (Hblack : forall t, 0 <= t < 3 -> u8 (mem Demo2.black) (100 + 4 * 5 + t) = 0).
  { intros t Ht. assert (Ht' : t = 0 \/ t = 1 \/ t = 2) by lia.
    destruct Ht' as [-> | [-> | ->]]; reflexivity. }
  exact (conj Hsep (conj Hi (conj Hblack
           (X7_black_mask 4 Demo2.black 0 100 6 5 Hsep Hi Hblack)))).
Defined.

(** X8. Under a white mask pixel of opacity [a] all the float
    arithmetic is exact: the stored alpha is [imageAlpha * a * 255]
    modulo 256.  For an opaque image pixel that is the mask opacity
    [a] itself. *)
Theorem X8_white_mask_of_any_opacity W st p m n i :
  separate p m n -> 0 <= i < n ->
  (forall t, 0 <= t < 3 -> u8 (mem st) (m + 4 * i + t) = 255) ->
  u8 (mem (applyLuminanceMask W st p m n)) (p + 4 * i + 3) =
    (u8 (mem st) (p + 4 * i + 3) * u8 (mem st) (m + 4 * i + 3) * 255) mod 2 ^ 8 /\
  (u8 (mem st) (p + 4 * i + 3) = 255 ->
   u8 (mem (applyLuminanceMask W st p m n)) (p + 4 * i + 3) = u8 (mem st) (m + 4 * i + 3)).
Proof.
  intros Hsep Hi Hwhite.
  assert (E : u8 (mem (applyLuminanceMask W st p m n)) (p + 4 * i + 3) =
              (u8 (mem st) (p + 4 * i + 3) * u8 (mem st) (m + 4 * i + 3) * 255) mod 2 ^ 8).
  { rewrite (applied_pixel_alpha W st p m n i Hsep Hi).
    pose proof (Hwhite 0 ltac:(lia)) as E0. rewrite Z.add_0_r in E0.
    rewrite (Hwhite 2), (Hwhite 1), E0 by lia.
    rewrite pixel_alpha_mask_white_colour by apply u8_range. reflexivity. }
  split; [exact E |]. intros Hopaque. rewrite E, Hopaque.
  pose proof (u8_range (mem st) (m + 4 * i + 3)) as Ha.
  change (2 ^ 8) with 256 in *.
  replace (255 * u8 (mem st) (m + 4 * i + 3) * 255)
    with (u8 (mem st) (m + 4 * i + 3) + u8 (mem st) (m + 4 * i + 3) * 254 * 256) by lia.
  rewrite Z.mod_add by lia. apply Z.mod_small. exact Ha.
Qed.

Lemma X8_white_mask_of_any_opacity_witness :
  separate 0 100 6 /\ 0 <= 5 < 6 /\
  (forall t, 0 <= t < 3 -> u8 (mem Demo2.veiled) (100 + 4 * 5 + t) = 255) /\
  u8 (mem (applyLuminanceMask 4 Demo2.veiled 0 100 6)) (0 + 4 * 5 + 3) =
    (u8 (mem Demo2.veiled) (0 + 4 * 5 + 3) * u8 (mem Demo2.veiled) (100 + 4 * 5 + 3) * 255)
    mod 2 ^ 8.
Proof.
  assert (Hsep : separate 0 100 6) by (unfold separate; lia).
  assert (Hi : 0 <= 5 < 6) by lia.
  assert (Hwhite : forall t, 0 <= t < 3 -> u8 (mem Demo2.veiled) (100 + 4 * 5 + t) = 255).
  { intros t Ht. assert (Ht' : t = 0 \/ t = 1 \/ t = 2) by lia.
    destruct Ht' as [-> | [-> | ->]]; reflexivity. }
  exact (conj Hsep (conj Hi (conj Hwhite
           (proj1 (X8_white_mask_of_any_opacity 4 Demo2.veiled 0 100 6 5 Hsep Hi Hwhite))))).
Defined.

(** X9. The float that is converted to [int] is never NaN, infinite
    or negative and stays below [2^30]: the conversion is always the
    plain nearest integer and never the out-of-range result
    [INT_MIN]. *)
Theorem X9_conversion_in_range ia a r g b :
  0 <= ia < 2 ^ 8 ->
  0 <= a < 2 ^ 8 -> 0 <= r < 2 ^ 8 -> 0 <= g < 2 ^ 8 -> 0 <= b < 2 ^ 8 ->
  below 21 (maskValueOf a r g b) /\
  below 30 (fmul (of_int ia) (maskValueOf a r g b)) /\
  to_int (fmul (of_int ia) (maskValueOf a r g b)) =
    rint (fmul (of_int ia) (maskValueOf a r g b)) /\
  0 <= to_int (fmul (of_int ia) (maskValueOf a r g b)) <= 2 ^ 30 /\
  to_int (fmul (of_int ia) (maskValueOf a r g b)) <> INT_MIN.
Proof.
  intros Hia Ha Hr Hg Hb.
  pose proof (maskValueOf_below a r g b Ha Hr Hg Hb) as Bm.
  assert (B : below 30 (fmul (of_int ia) (maskValueOf a r g b))).
  { apply (fmul_below 8 21); [apply of_int_byte; exact Hia | exact Bm | lia]. }
  destruct (pixel_alpha_rint ia a r g b Hia Ha Hr Hg Hb) as [E R].
  unfold pixel_alpha in E, R.
  split; [exact Bm |]. split; [exact B |]. split; [exact E |]. split; [exact R |].
  unfold INT_MIN. change (2 ^ 31) with 2147483648. lia.
Qed.

Lemma X9_conversion_in_range_witness :
  0 <= 255 < 2 ^ 8 /\
  to_int (fmul (of_int 255) (maskValueOf 255 255 255 255)) =
    rint (fmul (of_int 255) (maskValueOf 255 255 255 255)).
Proof.
  assert (H : 0 <= 255 < 2 ^ 8) by (change (2 ^ 8) with 256; lia).
  pose proof (X9_conversion_in_range 255 255 255 255 255 H H H H H) as (_ & _ & E & _).
  exact (conj H E).
Defined.

(** X10. The image range may be its own mask range ([maskPixels =
    pixels]): every pixel is then masked by its own original value,
    in the vectorised variant as in the scalar fallback, which leave
    the same memory. *)
Theorem X10_own_mask W st p n i :
  0 <= i < n ->
  u8 (mem (applyLuminanceMask W st p p n)) (p + 4 * i + 3) =
    rint (fmul (of_int (u8 (mem st) (p + 4 * i + 3)))
               (maskValueOf (u8 (mem st) (p + 4 * i + 3)) (u8 (mem st) (p + 4 * i + 2))
                            (u8 (mem st) (p + 4 * i + 1)) (u8 (mem st) (p + 4 * i))))
    mod 2 ^ 8 /\
  (forall x, mem (applyLuminanceMask W st p p n) x = mem (fallbackLuminanceMask st p p n) x).
Proof.
  intros Hi. assert (Hn : 0 <= n) by lia.
  destruct (applyLuminanceMask_own_mask W st p n Hn) as (FA & _ & AA).
  pose proof (fallbackLuminanceMask_own_mask st p n) as (FB & _ & AB).
  rewrite Z.max_r in FB, AB by exact Hn.
  split.
  - unfold u8 at 1. rewrite (AA i Hi). apply new_alpha_formula.
  - intros x. destruct (touched_dec p n x) as [(j & Hj & ->) | Hx].
    + rewrite (AA j Hj), (AB j Hj). reflexivity.
    + rewrite FA, FB by exact Hx. reflexivity.
Qed.

Lemma X10_own_mask_witness :
  0 <= 5 < 6 /\
  (forall x, mem (applyLuminanceMask 4 Demo.mixed 0 0 6) x =
             mem (fallbackLuminanceMask Demo.mixed 0 0 6) x).
Proof.
  assert (Hi : 0 <= 5 < 6) by lia.
  exact (conj Hi (proj2 (X10_own_mask 4 Demo.mixed 0 6 5 Hi))).
Defined.

(** X11. No call writes outside the image range
    [pixels, pixels + 4 * nPixels), whatever the pointers and the
    count are: every byte outside keeps its value, and every pixel
    store lies inside. *)
Theorem X11_writes_stay_in_image_range W st p m n x :
  x < p \/ p + 4 * n <= x ->
  mem (applyLuminanceMask W st p m n) x = mem st x /\
  mem (applyLuminanceMask_generic st p m n) x = mem st x /\
  stores (applyLuminanceMask W st p m n) = stores st ++ pixel_addrs p n /\
  (forall q, In q (pixel_addrs p n) -> p <= q /\ q + 4 <= p + 4 * n).
Proof.
  intros Hx.
  assert (Hnt : ~ touched p n x) by (intros (i & Hi & E); lia).
  destruct (applyLuminanceMask_run W st p m n) as (F1 & L1 & _).
  destruct (fallbackLuminanceMask_run st p m n) as (F2 & _ & _).
  split; [apply F1, Hnt |]. split; [apply F2, Hnt |]. split; [exact L1 |].
  intros q Hq. apply in_pixel_addrs in Hq. destruct Hq as (i & Hi & ->). lia.
Qed.

Lemma X11_writes_stay_in_image_range_witness :
  (24 < 0 \/ 0 + 4 * 6 <= 24) /\
  mem (applyLuminanceMask 4 Demo.mixed 0 100 6) 24 = mem Demo.mixed 24.
Proof.
  assert (Hx : 24 < 0 \/ 0 + 4 * 6 <= 24) by (right; lia).
  exact (conj Hx (proj1 (X11_writes_stay_in_image_range 4 Demo.mixed 0 100 6 24 Hx))).
Defined.

(** X12. What a call leaves in the image range depends on the bytes
    of the two buffers only: two memories that agree on the image
    range and on the mask range give the same bytes there. *)
Theorem X12_buffers_determine_result W st st2 p m n x :
  separate p m n ->
  (forall y, p <= y < p + 4 * n -> mem st2 y = mem st y) ->
  (forall y, m <= y < m + 4 * n -> mem st2 y = mem st y) ->
  p <= x < p + 4 * n ->
  mem (applyLuminanceMask W st2 p m n) x = mem (applyLuminanceMask W st p m n) x.
Proof.
  intros Hsep Himg Hmask Hx.
  destruct (applyLuminanceMask_run W st p m n) as (F1 & _ & A1).
  destruct (applyLuminanceMask_run W st2 p m n) as (F2 & _ & A2).
  destruct (touched_dec p n x) as [(i & Hi & ->) | Hnt].
  - rewrite (A1 Hsep i Hi), (A2 Hsep i Hi). apply new_alpha_ext.
    + apply Himg. lia.
    + intros t Ht. apply Hmask. lia.
  - rewrite F1, F2 by exact Hnt. apply Himg. exact Hx.
Qed.

Lemma X12_buffers_determine_result_witness :
  separate 0 100 6 /\
  (forall y, 0 <= y < 0 + 4 * 6 -> mem Demo2.elsewhere y = mem Demo.mixed y) /\
  (forall y, 100 <= y < 100 + 4 * 6 -> mem Demo2.elsewhere y = mem Demo.mixed y) /\
  0 <= 7 < 0 + 4 * 6 /\
  mem (applyLuminanceMask 4 Demo2.elsewhere 0 100 6) 7 =
    mem (applyLuminanceMask 4 Demo.mixed 0 100 6) 7.
Proof.
  assert (Hsep : separate 0 100 6) by (unfold separate; lia).
  assert (Himg : forall y, 0 <= y < 0 + 4 * 6 -> mem Demo2.elsewhere y = mem Demo.mixed y).
  { intros y Hy. unfold Demo2.elsewhere. cbn [mem].
    destruct (Z.eqb_spec y 50); [lia | reflexivity]. }
  assert (Hmask : forall y, 100 <= y < 100 + 4 * 6 -> mem Demo2.elsewhere y = mem Demo.mixed y).
  { intros y Hy. unfold Demo2.elsewhere. cbn [mem].
    destruct (Z.eqb_spec y 50); [lia | reflexivity]. }
  assert (Hx : 0 <= 7 < 0 + 4 * 6) by lia.
  exact (conj Hsep (conj Himg (conj Hmask (conj Hx
           (X12_buffers_determine_result 4 Demo.mixed Demo2.elsewhere 0 100 6 7
              Hsep Himg Hmask Hx))))).
Defined.
